(** * DocsBuilder (docs/docs_build.py): a shallow embedding and its properties

    The orchestration script is glue around a file system, a version-control
    checkout, remote zip archives and shell commands.  The embedding keeps the
    control flow of every method of [DocsBuilder] and threads the outside
    world explicitly: a state-and-exception monad over a [World], with the
    collaborators that are not part of the module (the command runner, the
    remote archives, the JSON decoder, [prepare_prior_version]) supplied by
    an environment record.

    Part I holds the definitions, Parts II and III the lemmas and theorems. *)

From Stdlib Require Import Ascii.
From stdpp Require Import base strings list gmap sorting.

(* ===================================================================== *)
(** * Part I: definitions                                                *)
(* ===================================================================== *)

(** ** Python string operations used by the module *)

Module PyStr.

(** [str.isspace] on the one-byte characters: tab, line feed, vertical tab,
    form feed, carriage return, the four separators 0x1c-0x1f and space. *)
Definition isspace (a : ascii) : bool :=
  let n := nat_of_ascii a in
  ((9 <=? n) && (n <=? 13)) || ((28 <=? n) && (n <=? 32)).

Fixpoint lstrip (s : string) : string :=
  match s with
  | String a s' => if isspace a then lstrip s' else s
  | EmptyString => EmptyString
  end.

(** [s.strip()] *)
Definition strip (s : string) : string :=
  String.rev (lstrip (String.rev (lstrip s))).

(** [s.split()]: the maximal runs of characters that are not white space.
    [cur] is the run being read, in reverse. *)
Fixpoint split_go (cur : option string) (s : string) : list string :=
  match s with
  | EmptyString => option_list (String.rev <$> cur)
  | String a s' =>
      if isspace a
      then option_list (String.rev <$> cur) ++ split_go None s'
      else split_go (Some (String a (default EmptyString cur))) s'
  end.
Definition split : string → list string := split_go None.

(** [s.split(sep)] for a one-character separator: never empty. *)
Fixpoint split_on (sep : ascii) (s : string) : list string :=
  match s with
  | EmptyString => [EmptyString]
  | String a s' =>
      if decide (a = sep) then EmptyString :: split_on sep s'
      else match split_on sep s' with
           | w :: ws => String a w :: ws
           | [] => [String a EmptyString]
           end
  end.

(** [sep.join(l)] *)
Definition join (sep : string) (l : list string) : string := String.concat sep l.

(** [str(b)] for a bool. *)
Definition of_bool (b : bool) : string := if b then "True" else "False".

(** [sorted(l)] on strings: ascending in the code-point order, which on byte
    strings is [String.le]. *)
Definition sorted (l : list string) : list string := merge_sort String.le l.

End PyStr.

(** ** Regular expressions: the fragment [re.compile] is given here *)

Module Re.

Inductive regex : Type :=
| Never
| Eps
| Lit (c : ascii)
| Range (lo hi : ascii)
| Seq (r1 r2 : regex)
| Alt (r1 r2 : regex)
| Star (r : regex)
| Plus (r : regex).

Fixpoint nullable (r : regex) : bool :=
  match r with
  | Never | Lit _ | Range _ _ => false
  | Eps | Star _ => true
  | Seq r1 r2 => nullable r1 && nullable r2
  | Alt r1 r2 => nullable r1 || nullable r2
  | Plus r1 => nullable r1
  end.

Definition in_range (lo hi c : ascii) : bool :=
  (nat_of_ascii lo <=? nat_of_ascii c) && (nat_of_ascii c <=? nat_of_ascii hi).

(** Brzozowski derivative: what is left to match after reading [c]. *)
Fixpoint deriv (c : ascii) (r : regex) : regex :=
  match r with
  | Never | Eps => Never
  | Lit d => if decide (c = d) then Eps else Never
  | Range lo hi => if in_range lo hi c then Eps else Never
  | Seq r1 r2 =>
      if nullable r1 then Alt (Seq (deriv c r1) r2) (deriv c r2)
      else Seq (deriv c r1) r2
  | Alt r1 r2 => Alt (deriv c r1) (deriv c r2)
  | Star r1 => Seq (deriv c r1) (Star r1)
  | Plus r1 => Seq (deriv c r1) (Star r1)
  end.

(** [pattern.match(s)] is not [None]: some prefix of [s] is in the language. *)
Fixpoint matches (r : regex) (s : string) : bool :=
  nullable r ||
  match s with
  | EmptyString => false
  | String c s' => matches (deriv c r) s'
  end.

(** [pattern.fullmatch(s)] is not [None]: [s] itself is in the language. *)
Fixpoint fullmatch (r : regex) (s : string) : bool :=
  match s with
  | EmptyString => nullable r
  | String c s' => fullmatch (deriv c r) s'
  end.

End Re.

(** [DocsBuilder._tag_regex]: [re.compile(r"([0-9]+\.)+[0-9]+")] *)
Definition _tag_regex : Re.regex :=
  let digits := Re.Plus (Re.Range "0"%char "9"%char) in
  Re.Seq (Re.Plus (Re.Seq digits (Re.Lit "."%char))) digits.

(** ** Version *)

(** Modelled from the spec: the class [Version] of
    [docs/prepare_prior_versions.py], which the module imports and whose
    source is not part of the sources at hand.  The spec describes it as a
    value parsed from a string tag such as 0.15.2, with no invariant beyond
    the string matching the numeric-dot-numeric pattern, that converts back
    to the string it was made from and is compared for equality.  The parsed
    value keeps the dot-separated fields as they were written. *)
Record Version := mkVersion { fields : list string }.

#[global] Instance Version_eq_dec : EqDecision Version.
Proof. solve_decision. Defined.

Module VersionOps.

(** [Version.from_string(s)]; [None] stands for the error raised on a string
    that is not numeric-dot-numeric. *)
Definition from_string (s : string) : option Version :=
  if Re.fullmatch _tag_regex s then Some (mkVersion (PyStr.split_on "."%char s))
  else None.

(** [str(version)] *)
Definition to_string (v : Version) : string := PyStr.join "." (fields v).

(** The numeric reading of a dotted tag, for comparing releases by number:
    the decimal value of each field's leading digits. *)
Fixpoint decimal (acc : N) (s : string) : N :=
  match s with
  | String a s' =>
      match Ascii.is_nat a with
      | Some d => decimal (10 * acc + N.of_nat d)%N s'
      | None => acc
      end
  | EmptyString => acc
  end.

Definition numeric_key (s : string) : list N :=
  decimal 0%N <$> PyStr.split_on "."%char s.

Fixpoint key_lt (k1 k2 : list N) : bool :=
  match k1, k2 with
  | [], [] => false
  | [], _ :: _ => true
  | _ :: _, [] => false
  | a :: k1', b :: k2' => (a <? b)%N || ((a =? b)%N && key_lt k1' k2')
  end.

(** [numeric_lt s t]: release [s] is older than release [t]. *)
Definition numeric_lt (s t : string) : bool :=
  key_lt (numeric_key s) (numeric_key t).

End VersionOps.

(** ** The file system *)

(** A path is the list of its components from the root; the root itself is
    the empty list and always a directory.  A tree maps the paths that exist
    to what is there.  Symbolic links are not modelled. *)
Inductive node : Type :=
| File (content : string)
| Dir.

#[global] Instance node_eq_dec : EqDecision node.
Proof. solve_decision. Defined.

Module Fs.

Definition node_at (t : gmap (list string) node) (p : list string) : option node :=
  match p with
  | [] => Some Dir
  | _ => t !! p
  end.

Definition same_kind (n1 n2 : node) : bool :=
  match n1, n2 with
  | File _, File _ | Dir, Dir => true
  | _, _ => false
  end.

Definition parent (p : list string) : list string := removelast p.

(** The directories strictly between the root and [p], outermost first. *)
Definition ancestors (p : list string) : list (list string) :=
  (λ n, take n p) <$> seq 1 (length p - 1).

(** [base / rel] and the resolution of a relative path string against the
    working directory: empty and [.] components are dropped, [..] climbs. *)
Definition step_into (acc : list string) (c : string) : list string :=
  if decide (c = "" ∨ c = ".") then acc
  else if decide (c = "..") then parent acc
  else acc ++ [c].

Definition resolve (base : list string) (rel : string) : list string :=
  foldl step_into base (PyStr.split_on "/"%char rel).

(** What is at or below directory [d], and what is not. *)
Definition subtree (d : list string) (t : gmap (list string) node) : gmap (list string) node :=
  filter (λ kv, d `prefix_of` kv.1) t.

Definition rmtree (d : list string) (t : gmap (list string) node) : gmap (list string) node :=
  filter (λ kv, ¬ d `prefix_of` kv.1) t.

(** The subtree at [old] re-rooted at [new]. *)
Definition rerooted (old new : list string) (t : gmap (list string) node) : gmap (list string) node :=
  list_to_map (prod_map (λ p, new ++ drop (length old) p) id <$> map_to_list (subtree old t)).

(** [os.rename(old, new)] once its checks have passed. *)
Definition renamed (old new : list string) (t : gmap (list string) node) : gmap (list string) node :=
  rerooted old new t ∪ rmtree old t.

(** In a file system every node sits in a directory: all the ancestors of
    a path that exists are directories. *)
Definition well_formed (t : gmap (list string) node) : Prop :=
  map_Forall (λ p _, Forall (λ a, t !! a = Some Dir) (ancestors p)) t.

(** Directories at each of the given paths, as [os.makedirs] leaves them. *)
Definition dirs (ps : list (list string)) : gmap (list string) node :=
  list_to_map ((λ p, (p, Dir)) <$> ps).

(** Nodes [delta] can be put in place over [t] when no path of [delta]
    holds a node of the other kind in [t]: [os.makedirs], [os.mkdir] and
    [open(..., "wb")] fail on a file where a directory is needed and on a
    directory where a file goes. *)
Definition fits (o : option node) (n : node) : bool :=
  match o with
  | None => true
  | Some n' => same_kind n' n
  end.

Definition agrees (t delta : gmap (list string) node) : bool :=
  bool_decide (map_Forall (λ p n, fits (t !! p) n = true) delta).

End Fs.

(** ** Zip archives *)

(** A member has a name, already split at the slashes and cleaned of [..] as
    the zipfile module does on extraction, and is a file with its bytes or a
    directory. *)
Record member := mkMember { name : list string; what : node }.

Module Zip.

(** The nodes that extracting one member to [target] puts in place: its
    ancestors, as directories, and itself.  A file cannot be written at the
    root. *)
Definition writes (target : list string) (n : node) : option (gmap (list string) node) :=
  match target, n with
  | [], File _ => None
  | [], Dir => Some ∅
  | _, _ => Some (<[target := n]> (Fs.dirs (Fs.ancestors target)))
  end.

Definition extract_member (root : list string) (m : member) (t : gmap (list string) node)
  : option (gmap (list string) node) :=
  match writes (root ++ name m) (what m) with
  | Some delta => if Fs.agrees t delta then Some (delta ∪ t) else None
  | None => None
  end.

(** [ZipFile.extractall(root)]: members in archive order, stopping at the
    first that fails; the flag tells whether all were extracted. *)
Fixpoint extract_all (root : list string) (ms : list member) (t : gmap (list string) node)
  : bool * gmap (list string) node :=
  match ms with
  | [] => (true, t)
  | m :: ms' =>
      match extract_member root m t with
      | Some t' => extract_all root ms' t'
      | None => (false, t)
      end
  end.

(** [ZipFile.read(name)]: the bytes of the last file member of that name. *)
Definition read (nm : string) (ms : list member) : option string :=
  last (omap (λ m, match what m with
                   | File c => if decide (name m = [nm]) then Some c else None
                   | Dir => None
                   end) ms).

End Zip.

(** ** JSON values, as [json.loads] returns them *)

Unset Elimination Schemes.
Inductive json : Type :=
| JNull
| JBool (b : bool)
| JNumber (n : Z)
| JString (s : string)
| JArray (items : list json)
| JObject (items : list (string * json)).
Set Elimination Schemes.

(** ** Exceptions, results and the world *)

Inductive exn : Type :=
| Exception (msg : string)                (* raised by the module itself *)
| AssertionError
| IndexError
| KeyError (key : string)
| TypeError
| ValueError (what : string)
| OSError (what : string) (p : list string)   (* os, shutil, open *)
| RequestException (url : string)          (* requests.get *)
| BadZipFile                               (* zipfile.ZipFile *)
| CollaboratorError (what : string).       (* raised inside a collaborator *)

Inductive res (A : Type) : Type :=
| Ok (a : A)
| Raised (e : exn).
Arguments Ok {A} a.
Arguments Raised {A} e.

(** What a shell command or an in-process collaborator can change: the file
    system and the checkout ([head] is what [git rev-parse --abbrev-ref HEAD]
    names, [prev_head] what [git checkout -] goes back to). *)
Record Sys := mkSys {
  fs : gmap (list string) node;
  head : string;
  prev_head : option string }.

Inductive event : Type :=
| ERun (command : string)                 (* Context.run *)
| ELog (header : bool) (msg : string)     (* logger.print / print_header *)
| EOpen (h : nat)                         (* ZipFile opened *)
| EClose (h : nat)                        (* ZipFile closed *)
| EWrite (p : list string) (content : string).  (* open(p, "w").write *)

#[global] Instance event_eq_dec : EqDecision event.
Proof. solve_decision. Defined.

Record World := mkWorld {
  sys : Sys;
  cwd : list string;                      (* os.getcwd() *)
  open_handles : gset nat;                (* archive handles not yet closed *)
  next_handle : nat;
  trace : list event;                     (* what has happened, oldest first *)
  latest_tag_memo : option string }.      (* cached_property _latest_tag *)

Definition M (A : Type) : Type := World → res A * World.

#[global] Instance M_ret : MRet M := λ A a w, (Ok a, w).
#[global] Instance M_bind : MBind M := λ A B f m w,
  match m w with
  | (Ok a, w') => f a w'
  | (Raised e, w') => (Raised e, w')
  end.

Definition raise {A} (e : exn) : M A := λ w, (Raised e, w).
Definition get : M World := λ w, (Ok w, w).
Definition put (w : World) : M unit := λ _, (Ok tt, w).
Definition lift {A} (r : res A) : M A := λ w, (r, w).

Definition with_sys (s : Sys) (w : World) : World :=
  mkWorld s (cwd w) (open_handles w) (next_handle w) (trace w) (latest_tag_memo w).
Definition with_fs (t : gmap (list string) node) (w : World) : World :=
  with_sys (mkSys t (head (sys w)) (prev_head (sys w))) w.
Definition with_cwd (d : list string) (w : World) : World :=
  mkWorld (sys w) d (open_handles w) (next_handle w) (trace w) (latest_tag_memo w).
Definition with_event (e : event) (w : World) : World :=
  mkWorld (sys w) (cwd w) (open_handles w) (next_handle w) (trace w ++ [e]) (latest_tag_memo w).
Definition with_memo (t : string) (w : World) : World :=
  mkWorld (sys w) (cwd w) (open_handles w) (next_handle w) (trace w) (Some t).
Definition with_opened (h : nat) (w : World) : World :=
  mkWorld (sys w) (cwd w) ({[h]} ∪ open_handles w) (S h) (trace w ++ [EOpen h]) (latest_tag_memo w).
Definition with_closed (h : nat) (w : World) : World :=
  mkWorld (sys w) (cwd w) (open_handles w ∖ {[h]}) (next_handle w) (trace w ++ [EClose h]) (latest_tag_memo w).

Definition emit (e : event) : M unit := λ w, (Ok tt, with_event e w).

(** ** The collaborators *)

(** What [Context.run] hands back: an object with a truth value, an [ok]
    flag and the captured standard output. *)
Record Result := mkResult { truthy : bool; ok : bool; stdout : string }.

Inductive run_outcome : Type :=
| Returned (r : option Result)            (* a result object, or None *)
| Threw (what : string).                  (* the runner raised *)

Inductive fetched : Type :=
| NoResponse                              (* requests.get raised *)
| NotAZip                                 (* the body is not a zip archive *)
| Zipped (ms : list member).

(** Everything the module reaches for outside itself.  [run command dir s]
    is [Context.run(command)] started in directory [dir]; [remote url] is
    what the URL serves; [S3_URL] is the constant of
    [docs.docs_version_bucket_info]. *)
Record Env := mkEnv {
  run : string → list string → Sys → run_outcome * Sys;
  remote : string → fetched;
  json_loads : string → option json;
  prepare_prior_version : Version → list string → Sys → option string * Sys;
  prepare_prior_versions : list Version → list string → Sys → option string * Sys;
  S3_URL : string }.

(** ** os, shutil, open, zipfile and the logger, in the monad *)

Definition os_path_exists (p : list string) : M bool :=
  w ← get; mret (bool_decide (is_Some (Fs.node_at (fs (sys w)) p))).

Definition shutil_rmtree (p : list string) : M unit :=
  w ← get;
  match Fs.node_at (fs (sys w)) p with
  | Some Dir => put (with_fs (Fs.rmtree p (fs (sys w))) w)
  | Some (File _) => raise (OSError "NotADirectoryError" p)
  | None => raise (OSError "FileNotFoundError" p)
  end.

Definition os_mkdir (p : list string) : M unit :=
  w ← get;
  match Fs.node_at (fs (sys w)) p, Fs.node_at (fs (sys w)) (Fs.parent p) with
  | Some _, _ => raise (OSError "FileExistsError" p)
  | None, Some Dir => put (with_fs (<[p := Dir]> (fs (sys w))) w)
  | None, Some (File _) => raise (OSError "NotADirectoryError" p)
  | None, None => raise (OSError "FileNotFoundError" p)
  end.

Definition os_chdir (rel : string) : M unit :=
  w ← get;
  let p := Fs.resolve (cwd w) rel in
  match Fs.node_at (fs (sys w)) p with
  | Some Dir => put (with_cwd p w)
  | Some (File _) => raise (OSError "NotADirectoryError" p)
  | None => raise (OSError "FileNotFoundError" p)
  end.

(** [with open(p, "r") as file: return file.read()] *)
Definition read_text (p : list string) : M string :=
  w ← get;
  match Fs.node_at (fs (sys w)) p with
  | Some (File c) => mret c
  | Some Dir => raise (OSError "IsADirectoryError" p)
  | None => raise (OSError "FileNotFoundError" p)
  end.

(** [with open(p, "w") as file: file.write(content)] *)
Definition write_text (p : list string) (content : string) : M unit :=
  w ← get;
  match Fs.node_at (fs (sys w)) p, Fs.node_at (fs (sys w)) (Fs.parent p) with
  | Some Dir, _ => raise (OSError "IsADirectoryError" p)
  | _, Some Dir => put (with_event (EWrite p content) (with_fs (<[p := File content]> (fs (sys w))) w))
  | _, Some (File _) => raise (OSError "NotADirectoryError" p)
  | _, None => raise (OSError "FileNotFoundError" p)
  end.

(** [shutil.move(src, dst)].  A destination that is a directory receives
    [src] inside it, under the last component of [src], unless that name is
    taken; otherwise [src] is renamed to [dst], a file replacing a file, and
    a directory moved to a fresh place has the missing directories above it
    made first (the copy that follows a failed [os.rename]). *)
Definition shutil_move (src dst : list string) : M unit :=
  w ← get;
  let t := fs (sys w) in
  match Fs.node_at t src with
  | None => raise (OSError "FileNotFoundError" src)
  | Some n =>
      if decide (src = dst) then mret tt
      else
        let real_dst :=
          match Fs.node_at t dst, last src with
          | Some Dir, Some base => dst ++ [base]
          | _, _ => dst
          end in
        if bool_decide (src `prefix_of` real_dst) then raise (OSError "shutil.Error" real_dst)
        else
          match Fs.node_at t dst, n with
          | Some Dir, _ =>
              match Fs.node_at t real_dst with
              | Some _ => raise (OSError "shutil.Error" real_dst)
              | None => put (with_fs (Fs.renamed src real_dst t) w)
              end
          | Some (File _), File _ => put (with_fs (Fs.renamed src real_dst t) w)
          | Some (File _), Dir => raise (OSError "FileExistsError" real_dst)
          | None, File _ =>
              match Fs.node_at t (Fs.parent real_dst) with
              | Some Dir => put (with_fs (Fs.renamed src real_dst t) w)
              | _ => raise (OSError "FileNotFoundError" real_dst)
              end
          | None, Dir =>
              let above := Fs.dirs (Fs.ancestors real_dst) in
              if Fs.agrees t above
              then put (with_fs (Fs.renamed src real_dst (above ∪ t)) w)
              else raise (OSError "NotADirectoryError" real_dst)
          end
  end.

(** An open archive: its handle and its members. *)
Record ZipFile := mkZipFile { handle : nat; members : list member }.

Definition check_open (z : ZipFile) : M unit :=
  w ← get;
  if decide (handle z ∈ open_handles w) then mret tt
  else raise (ValueError "Attempt to use ZIP archive that was already closed").

(** [zip_ref.extractall(root)] *)
Definition extractall (z : ZipFile) (root : list string) : M unit :=
  check_open z;;
  w ← get;
  let '(done, t) := Zip.extract_all root (members z) (fs (sys w)) in
  put (with_fs t w);;
  if done : bool then mret tt else raise (OSError "extract" root).

(** [zip_ref.read(name)] *)
Definition zip_read (z : ZipFile) (nm : string) : M string :=
  check_open z;;
  match Zip.read nm (members z) with
  | Some c => mret c
  | None => raise (KeyError nm)
  end.

Definition logger_print (msg : string) : M unit := emit (ELog false msg).
Definition logger_print_header (msg : string) : M unit := emit (ELog true msg).

(** [[Version.from_string(x) for x in value]]: a list is walked item by item,
    a string character by character, an object key by key; anything else
    cannot be iterated, and an item that is not a string cannot be parsed. *)
Definition version_of (x : json) : res Version :=
  match x with
  | JString s =>
      match VersionOps.from_string s with
      | Some v => Ok v
      | None => Raised (ValueError s)
      end
  | _ => Raised TypeError
  end.

Fixpoint versions_of (xs : list json) : res (list Version) :=
  match xs with
  | [] => Ok []
  | x :: xs' =>
      match version_of x with
      | Raised e => Raised e
      | Ok v =>
          match versions_of xs' with
          | Raised e => Raised e
          | Ok vs => Ok (v :: vs)
          end
      end
  end.

Fixpoint chars (s : string) : list json :=
  match s with
  | EmptyString => []
  | String a s' => JString (String a EmptyString) :: chars s'
  end.

Definition iterate (j : json) : res (list json) :=
  match j with
  | JArray items => Ok items
  | JString s => Ok (chars s)
  | JObject items => Ok (JString <$> items.*1)
  | _ => Raised TypeError
  end.

(** ** class DocsBuilder *)

(** The fields set by [__init__]; [_context] is the environment. *)
Record DocsBuilder := mkDocsBuilder {
  _current_directory : list string;
  _is_pull_request : bool;
  _is_local : bool;
  _current_commit : string;
  _current_branch : string }.

Section DocsBuilder.

Context (env : Env).

(** [self._context.run(command)] *)
Definition context_run (command : string) : M (option Result) := λ w,
  let w1 := with_event (ERun command) w in
  match run env command (cwd w) (sys w) with
  | (Returned r, s) => (Ok r, with_sys s w1)
  | (Threw what, s) => (Raised (CollaboratorError what), with_sys s w1)
  end.

Definition call_prepare_prior_version (version : Version) : M unit := λ w,
  match prepare_prior_version env version (cwd w) (sys w) with
  | (None, s) => (Ok tt, with_sys s w)
  | (Some what, s) => (Raised (CollaboratorError what), with_sys s w)
  end.

Definition call_prepare_prior_versions (versions : list Version) : M unit := λ w,
  match prepare_prior_versions env versions (cwd w) (sys w) with
  | (None, s) => (Ok tt, with_sys s w)
  | (Some what, s) => (Raised (CollaboratorError what), with_sys s w)
  end.

Definition _run (command : string) : M (option string) :=
  result ← context_run command;
  match result with
  | None => mret None
  | Some r =>
      if negb (truthy r) then mret None
      else if negb (ok r) then raise (Exception ("Failed to run command: " +:+ command))
      else mret (Some (PyStr.strip (stdout r)))
  end.

Definition _run_and_get_output (command : string) : M string :=
  output ← _run command;
  match output with
  | None | Some EmptyString => raise AssertionError
  | Some out => mret out
  end.

Definition __init__ (current_directory : list string) (is_pull_request is_local : bool)
  : M DocsBuilder :=
  current_commit ← _run_and_get_output "git rev-parse HEAD";
  current_branch ← _run_and_get_output "git rev-parse --abbrev-ref HEAD";
  mret (mkDocsBuilder current_directory is_pull_request is_local current_commit current_branch).

Definition _release_version_file : string := "./docs/components/_data.jsx".

Definition _read_prior_release_version_file : M string :=
  w ← get; read_text (Fs.resolve (cwd w) _release_version_file).

Definition _write_release_version (content : string) : M unit :=
  w ← get; write_text (Fs.resolve (cwd w) _release_version_file) content.

(** The context manager: the body runs between opening and closing, and
    what it returns or raises comes out after the close. *)
Definition _load_zip {A} (url : string) (body : ZipFile → M A) : M A := λ w,
  match remote env url with
  | NoResponse => (Raised (RequestException url), w)
  | NotAZip => (Raised BadZipFile, w)
  | Zipped ms =>
      let h := next_handle w in
      let '(r, w') := body (mkZipFile h ms) (with_opened h w) in
      (r, with_closed h w')
  end.

Definition _load_all_versioned_docs (self : DocsBuilder) : M (list Version) :=
  logger_print ("Copying previous versioned docs from " +:+ S3_URL env);;
  w ← get;
  let versioned_code := Fs.resolve (cwd w) "versioned_code" in
  there ← os_path_exists versioned_code;
  (if there : bool then shutil_rmtree versioned_code else mret tt);;
  os_mkdir versioned_code;;
  _load_zip (S3_URL env) (λ zip_ref,
    extractall zip_ref (_current_directory self);;
    versions_json ← zip_read zip_ref "versions.json";
    match json_loads env versions_json with
    | None => raise (ValueError "JSONDecodeError")
    | Some value => items ← lift (iterate value); lift (versions_of items)
    end).

Definition _load_versioned_code (self : DocsBuilder) (version : Version) : M unit :=
  let v := VersionOps.to_string version in
  logger_print ("Copying code referenced in docs from " +:+ v
                +:+ " and writing to versioned_code/version-" +:+ v);;
  let url := "https://github.com/great-expectations/great_expectations/archive/refs/tags/"
             +:+ v +:+ ".zip" in
  _load_zip url (λ zip_ref,
    extractall zip_ref (Fs.resolve (_current_directory self) "versioned_code");;
    let old_location :=
      Fs.resolve (_current_directory self) ("versioned_code/great_expectations-" +:+ v) in
    let new_location :=
      Fs.resolve (_current_directory self) ("versioned_code/version-" +:+ v) in
    shutil_move old_location new_location).

Definition _invoke_api_docs : M unit :=
  logger_print "Invoking api-docs...";;
  _run "(cd ../../; invoke api-docs)";;
  mret tt.

Definition _checkout_correct_branch (self : DocsBuilder) : M unit :=
  if _is_local self then
    logger_print_header ("Building locally - Checking back out current branch ("
      +:+ _current_branch self +:+ ") before building the rest of the docs.");;
    _run ("git checkout " +:+ _current_branch self);;
    mret tt
  else
    logger_print_header ("In a pull request or deploying in netlify (PULL_REQUEST = $"
      +:+ PyStr.of_bool (_is_pull_request self) +:+ ") Checking out $"
      +:+ _current_commit self +:+ ".");;
    _run ("git checkout " +:+ _current_commit self);;
    mret tt.

Definition _load_files (self : DocsBuilder) : M (list Version) :=
  versions ← _load_all_versioned_docs self;
  mapM (_load_versioned_code self) versions;;
  mret versions.

Definition _prepare (self : DocsBuilder) : M unit :=
  logger_print_header "Preparing to build docs...";;
  versions_loaded ← _load_files self;
  logger_print_header "Updating versioned code and docs via prepare_prior_versions.py...";;
  os_chdir "..";;
  call_prepare_prior_versions versions_loaded;;
  os_chdir "docusaurus";;
  logger_print "Updated versioned code and docs";;
  _invoke_api_docs;;
  _checkout_correct_branch self.

Definition build_docs (self : DocsBuilder) : M unit :=
  logger_print_header "Preparing to build docs...";;
  _load_all_versioned_docs self;;
  _invoke_api_docs;;
  logger_print_header "Building docusaurus docs...";;
  context_run "yarn build";;
  mret tt.

Definition build_docs_locally (self : DocsBuilder) : M unit :=
  _prepare self;;
  logger_print_header "Running yarn start to serve docs locally...";;
  context_run "yarn start";;
  mret tt.

(** [MIN_PYTHON_VERSION = 3.8] and [MAX_PYTHON_VERSION = 3.8], as the
    f-string prints the two float literals. *)
Definition MIN_PYTHON_VERSION : string := "3.8".
Definition MAX_PYTHON_VERSION : string := "3.8".

Definition newline : string := String "010"%char EmptyString.

(** The text [create_version] writes to the release version file. *)
Definition release_version_module (version : Version) : string :=
  PyStr.join newline
    [ "// this file is autogenerated";
      "export default {";
      "  release_version: 'great_expectations, version " +:+ VersionOps.to_string version +:+ "',";
      "   min_python: '" +:+ MIN_PYTHON_VERSION +:+ "',";
      "   max_python: '" +:+ MAX_PYTHON_VERSION +:+ "',";
      "}" ].

Definition create_version (self : DocsBuilder) (version : Version) : M unit :=
  let v := VersionOps.to_string version in
  logger_print_header ("Creating version " +:+ v);;
  versions ← _load_all_versioned_docs self;
  (if decide (version ∈ versions)
   then raise (Exception ("Version " +:+ v +:+ " already exists"))
   else mret tt);;
  context_run ("git checkout " +:+ v);;
  old_version_file ← _read_prior_release_version_file;
  _write_release_version (release_version_module version);;
  context_run ("yarn docusaurus docs:version " +:+ v);;
  _load_versioned_code self version;;
  os_chdir "..";;
  call_prepare_prior_version version;;
  os_chdir "docusaurus";;
  let output_file := "oss_docs_versions.zip" in
  context_run ("zip -r " +:+ output_file
               +:+ " versioned_code versioned_docs versioned_sidebars versions.json");;
  logger_print ("Created " +:+ output_file);;
  _write_release_version old_version_file;;
  context_run "git checkout -";;
  logger_print_header "Testing that we can build the docs...";;
  _invoke_api_docs;;
  context_run "yarn build";;
  logger_print_header ("Successfully created version " +:+ v +:+ ". Upload "
                       +:+ output_file +:+ " to S3.").

(** The cached property: computed on first use, then read from the memo. *)
Definition _latest_tag : M string :=
  w ← get;
  match latest_tag_memo w with
  | Some t => mret t
  | None =>
      tags_string ← _run "git tag";
      match tags_string with
      | None => raise AssertionError
      | Some out =>
          let tags := filter (λ t, Re.matches _tag_regex t = true) (PyStr.split out) in
          match last (PyStr.sorted tags) with
          | None => raise IndexError
          | Some t => w' ← get; put (with_memo t w');; mret t
          end
      end
  end.

End DocsBuilder.

(** ** A reference environment *)

(** A small deterministic environment on which the methods can be run: a
    shell that knows the git commands the module issues and lets every other
    command succeed without touching anything, URLs served from a table, a
    JSON decoder for flat arrays of strings, and [prepare_prior_version]
    doing nothing.  The commands listed as [broken] report failure. *)
Module Sim.

Fixpoint after (pre s : string) : option string :=
  match pre, s with
  | EmptyString, _ => Some s
  | String a pre', String b s' => if decide (a = b) then after pre' s' else None
  | String _ _, EmptyString => None
  end.

Definition success (out : string) : run_outcome :=
  Returned (Some (mkResult true true out)).

Definition shell (broken : list string) (tags : string)
    (command : string) (dir : list string) (s : Sys) : run_outcome * Sys :=
  if decide (command ∈ broken) then (Returned (Some (mkResult true false "")), s)
  else if decide (command = "git rev-parse HEAD") then (success ("c0ffee" +:+ newline), s)
  else if decide (command = "git rev-parse --abbrev-ref HEAD") then (success (head s +:+ newline), s)
  else if decide (command = "git tag") then (success tags, s)
  else if decide (command = "git checkout -") then
    match prev_head s with
    | Some p => (success "", mkSys (fs s) p (Some (head s)))
    | None => (Threw "UnexpectedExit", s)
    end
  else match after "git checkout " command with
       | Some ref => (success "", mkSys (fs s) ref (Some (head s)))
       | None => (success "", s)
       end.

Definition quote : ascii := "034"%char.

Definition unquote (s : string) : option json :=
  match PyStr.strip s with
  | String a s' =>
      match String.rev s' with
      | String b body => if decide (a = quote ∧ b = quote) then Some (JString (String.rev body)) else None
      | EmptyString => None
      end
  | EmptyString => None
  end.

Definition loads (s : string) : option json :=
  match PyStr.strip s with
  | String "["%char s' =>
      match String.rev s' with
      | String "]"%char body =>
          if decide (PyStr.strip body = "") then Some (JArray [])
          else JArray <$> mapM unquote (PyStr.split_on ","%char (String.rev body))
      | _ => None
      end
  | _ => None
  end.

Definition serve (table : list (string * list member)) (url : string) : fetched :=
  match list_find (λ kv, kv.1 = url) table with
  | Some (_, (_, ms)) => Zipped ms
  | None => NoResponse
  end.

Definition env_with (broken : list string) (tags : string)
    (table : list (string * list member)) : Env :=
  mkEnv (shell broken tags) (serve table) loads (λ _ _ s, (None, s)) (λ _ _ s, (None, s))
        "https://bucket.example/oss_docs_versions.zip".

Definition env : string → list (string * list member) → Env := env_with [].

(** A repository checked out on [main], with the docusaurus directory as the
    working directory and a release version file in it. *)
Definition docusaurus : list string := ["repo"; "docs"; "docusaurus"].

Definition files (l : list (list string * node)) : gmap (list string) node := list_to_map l.

Definition base_fs : gmap (list string) node :=
  files [ (["repo"], Dir); (["repo"; "docs"], Dir); (docusaurus, Dir);
          (docusaurus ++ ["docs"], Dir); (docusaurus ++ ["docs"; "components"], Dir);
          (docusaurus ++ ["docs"; "components"; "_data.jsx"], File "export default {}") ].

Definition world (t : gmap (list string) node) : World :=
  mkWorld (mkSys t "main" None) docusaurus ∅ 0 [] None.

Definition builder (is_local : bool) : DocsBuilder :=
  mkDocsBuilder docusaurus false is_local "c0ffee" "main".

(** The text of a versions.json listing the given versions. *)
Definition versions_json (vs : list string) : string :=
  "[" +:+ PyStr.join ", " ((λ v, String quote v +:+ String quote "") <$> vs) +:+ "]".

Definition bucket (extra : list member) (vs : list string) : string * list member :=
  ("https://bucket.example/oss_docs_versions.zip",
   mkMember ["versions.json"] (File (versions_json vs)) :: extra).

Definition tag_archive (v : string) (ms : list member) : string * list member :=
  ("https://github.com/great-expectations/great_expectations/archive/refs/tags/" +:+ v +:+ ".zip",
   ms).

(** A bucket that lists 0.15.2 and carries its frozen code, with the code
    host serving the archives of tags 0.15.2 and 0.16.0. *)
Definition demo_env : Env :=
  env "" [ bucket [mkMember ["versioned_code"; "version-0.15.2"; "a.py"] (File "x")] ["0.15.2"];
           tag_archive "0.15.2" [mkMember ["great_expectations-0.15.2"; "README"] (File "r")];
           tag_archive "0.16.0" [mkMember ["great_expectations-0.16.0"; "README"] (File "r")] ].

(** The repository with a file left in versioned_code by an earlier run. *)
Definition stale_fs : gmap (list string) node :=
  <[docusaurus ++ ["versioned_code"; "stale.txt"] := File "old"]>
    (<[docusaurus ++ ["versioned_code"] := Dir]> base_fs).

(** The repository with versioned_code as the bucket's archive fills it: the
    frozen code of 0.15.2 is in version-0.15.2. *)
Definition frozen_fs : gmap (list string) node :=
  <[docusaurus ++ ["versioned_code"; "version-0.15.2"; "a.py"] := File "x"]>
    (<[docusaurus ++ ["versioned_code"; "version-0.15.2"] := Dir]>
       (<[docusaurus ++ ["versioned_code"] := Dir]> base_fs)).


(** A second site directory next to docusaurus, with a release version file
    of its own, and a run started there. *)
Definition site : list string := ["repo"; "docs"; "site"].

Definition site_fs : gmap (list string) node :=
  <[site ++ ["docs"; "components"; "_data.jsx"] := File "site"]>
    (<[site ++ ["docs"; "components"] := Dir]>
       (<[site ++ ["docs"] := Dir]> (<[site := Dir]> base_fs))).

Definition site_world : World := mkWorld (mkSys site_fs "main" None) site ∅ 0 [] None.

Definition site_builder : DocsBuilder := mkDocsBuilder site false true "c0ffee" "main".

End Sim.

(** ** Vocabulary of the statements *)

(** The tags [_latest_tag] chooses among. *)
Definition matching_tags (out : string) : list string :=
  filter (λ t, Re.matches _tag_regex t = true) (PyStr.split out).

(** [keeps R m]: whatever [m] does, and however it ends, the world it leaves
    is related by [R] to the world it started in. *)
Definition keeps {A} (R : relation World) (m : M A) : Prop :=
  ∀ w r w', m w = (r, w') → R w w'.

(** The ways a world changes, as closure conditions on a relation: by the
    file system calls and the logger, and by opening and closing archives. *)
Record closed_under_fs (R : relation World) : Prop := {
  io_fs : ∀ w t, R w (with_fs t w);
  io_log : ∀ w b msg, R w (with_event (ELog b msg) w) }.

Record closed_under_io (R : relation World) : Prop := {
  io_files :> closed_under_fs R;
  io_open : ∀ w h, R w (with_opened h w);
  io_close : ∀ w h, R w (with_closed h w) }.

(** The error [_run] raises for a command that reported failure. *)
Definition failed (command : string) : exn :=
  Exception ("Failed to run command: " +:+ command).

(** [on_raise P m]: whenever [m] ends by raising, [P] holds of the exception
    and of the world at that point. *)
Definition on_raise {A} (P : exn → World → Prop) (m : M A) : Prop :=
  ∀ w e w', m w = (Raised e, w') → P e w'.


Definition not_a_failure (e : exn) (w : World) : Prop :=
  ∀ c, e ≠ failed c.

(** [extends_by P w w']: from [w] to [w'] the trace only grew, and by events
    that satisfy [P]. *)
Definition extends_by (P : event → Prop) (w w' : World) : Prop :=
  ∃ evs, trace w' = trace w ++ evs ∧ Forall P evs.


Definition is_run (e : event) : Prop := ∃ c, e = ERun c.

Definition is_write (e : event) : Prop := ∃ p content, e = EWrite p content.

(** The checkout [_checkout_correct_branch] goes back to. *)
Definition recorded_checkout (self : DocsBuilder) : string :=
  if _is_local self then _current_branch self else _current_commit self.

(** Every archive handle that is open was handed out before: the handle
    counter is above all of them. *)
Definition handles_in_order (w : World) : Prop :=
  ∀ h, h ∈ open_handles w → h < next_handle w.

(** From [w] to [w'] no archive handle was left open or closed behind one's
    back, and the counter did not go back. *)
Definition same_handles (w w' : World) : Prop :=
  handles_in_order w →
  open_handles w' = open_handles w ∧ next_handle w ≤ next_handle w'.

(** The writes to text files among some events, in order. *)
Definition writes_of (evs : list event) : list (list string * string) :=
  omap (λ e, match e with EWrite p c => Some (p, c) | _ => None end) evs.

(** [wrote l w w']: from [w] to [w'] the trace grew, and the files written
    on the way were those of [l]. *)
Definition wrote (l : list (list string * string)) (w w' : World) : Prop :=
  ∃ evs, trace w' = trace w ++ evs ∧ writes_of evs = l.

(** Nothing was written and the working directory is the same. *)
Definition quietly (w w' : World) : Prop := wrote [] w w' ∧ cwd w' = cwd w.



(** From [w] to [w'] the checkout and the working directory are the same,
    no command was run and no text file was written. *)
Definition undisturbed (w w' : World) : Prop :=
  head (sys w') = head (sys w) ∧ prev_head (sys w') = prev_head (sys w) ∧
  cwd w' = cwd w ∧ extends_by (λ e, ¬ is_run e ∧ ¬ is_write e) w w'.

(** What the first three steps of [_load_all_versioned_docs] do to the
    tree: remove the directory if something is there, make it anew.  The
    error, if any, comes with the tree as it was left. *)
Definition recreate (d : list string) (t : gmap (list string) node)
  : option exn * gmap (list string) node :=
  match Fs.node_at t d with
  | Some (File _) => (Some (OSError "NotADirectoryError" d), t)
  | o =>
      let t0 := match o with Some _ => Fs.rmtree d t | None => t end in
      match Fs.node_at t0 d, Fs.node_at t0 (Fs.parent d) with
      | Some _, _ => (Some (OSError "FileExistsError" d), t0)
      | None, Some Dir => (None, <[d := Dir]> t0)
      | None, Some (File _) => (Some (OSError "NotADirectoryError" d), t0)
      | None, None => (Some (OSError "FileNotFoundError" d), t0)
      end
  end.

(** The versions listed in the archive's versions.json. *)
Definition listed_versions (env : Env) (ms : list member) : res (list Version) :=
  match Zip.read "versions.json" ms with
  | None => Raised (KeyError "versions.json")
  | Some text =>
      match json_loads env text with
      | None => Raised (ValueError "JSONDecodeError")
      | Some value =>
          match iterate value with
          | Raised e => Raised e
          | Ok items => versions_of items
          end
      end
  end.

(** What the with-block of [_load_all_versioned_docs] returns or raises,
    and the tree it leaves. *)
Definition unpack (env : Env) (self : DocsBuilder) (t : gmap (list string) node)
  : res (list Version) * gmap (list string) node :=
  match remote env (S3_URL env) with
  | NoResponse => (Raised (RequestException (S3_URL env)), t)
  | NotAZip => (Raised BadZipFile, t)
  | Zipped ms =>
      let '(done, t') := Zip.extract_all (_current_directory self) ms t in
      (if done : bool then listed_versions env ms
       else Raised (OSError "extract" (_current_directory self)), t')
  end.

(** What [_load_all_versioned_docs] returns or raises, and the tree it
    leaves, from the working directory [dir] and the tree [t]. *)
Definition load_outcome (env : Env) (self : DocsBuilder) (dir : list string)
    (t : gmap (list string) node) : res (list Version) * gmap (list string) node :=
  match recreate (Fs.resolve dir "versioned_code") t with
  | (Some e, t0) => (Raised e, t0)
  | (None, t1) => unpack env self t1
  end.

(** [w'] is [w] with the tree [t], a longer trace and possibly a higher
    handle counter: the checkout, the working directory and the open
    handles are those of [w]. *)
Definition leaves_tree (t : gmap (list string) node) (w w' : World) : Prop :=
  fs (sys w') = t ∧ head (sys w') = head (sys w) ∧ prev_head (sys w') = prev_head (sys w) ∧
  cwd w' = cwd w.

(** Whether every character of [s] satisfies [P]. *)
Fixpoint all_chars (P : ascii → bool) (s : string) : bool :=
  match s with
  | EmptyString => true
  | String a s' => P a && all_chars P s'
  end.






Definition tag_url (v : string) : string :=
  "https://github.com/great-expectations/great_expectations/archive/refs/tags/" +:+ v +:+ ".zip".


(** No member of the versions archive is extracted to [file] or below it. *)
Definition archive_spares (env : Env) (self : DocsBuilder) (file : list string) : Prop :=
  ∀ ms m, remote env (S3_URL env) = Zipped ms → m ∈ ms →
          ¬ file `prefix_of` (_current_directory self ++ name m).

(** From [w] to [w'] the checkout is the same. *)
Definition same_checkout (w w' : World) : Prop :=
  head (sys w') = head (sys w) ∧ prev_head (sys w') = prev_head (sys w).

(** The commands and the text-file writes among some events, in order. *)
Definition script_of (evs : list event) : list event :=
  omap (λ e, match e with ERun _ | EWrite _ _ => Some e | _ => None end) evs.

(** [did l w w']: from [w] to [w'] the trace grew, and the commands run and
    the text files written on the way were, in order, those of [l]. *)
Definition did (l : list event) (w w' : World) : Prop :=
  ∃ evs, trace w' = trace w ++ evs ∧ script_of evs = l.


(** The environment with another command runner. *)
Definition with_runner (run' : string → list string → Sys → run_outcome * Sys) (env : Env) : Env :=
  mkEnv run' (remote env) (json_loads env) (prepare_prior_version env)
        (prepare_prior_versions env) (S3_URL env).

(** Two outcomes of a command that differ at most in the result object
    handed back. *)
Definition alike (x y : run_outcome * Sys) : Prop :=
  x.2 = y.2 ∧
  match x.1, y.1 with
  | Returned _, Returned _ => True
  | Threw a, Threw b => a = b
  | _, _ => False
  end.

(** Two computations that do the same in every world. *)
Definition same_behaviour {A} (m1 m2 : M A) : Prop := ∀ w, m1 w = m2 w.

(** As [did], and the working directory is the same. *)
Definition did_in_place (l : list event) (w w' : World) : Prop :=
  did l w w' ∧ cwd w' = cwd w.




(** A relation that every step outside the archives respects, changes of
    the working directory apart: the file system calls and the logger, what
    a collaborator does to the system, and any event. *)
Record closed_under_steps (R : relation World) : Prop := {
  step_files :> closed_under_fs R;
  step_sys : ∀ w s, R w (with_sys s w);
  step_event : ∀ w e, R w (with_event e w) }.

(** From [w] to [w'] the working directory is the same. *)
Definition in_place (w w' : World) : Prop := cwd w' = cwd w.

(** A string that does not start with white space, and one with no white
    space at either end. *)
Definition starts_clean (s : string) : Prop :=
  match s with
  | String a _ => PyStr.isspace a = false
  | EmptyString => True
  end.

Definition trimmed (s : string) : Prop := starts_clean s ∧ starts_clean (String.rev s).

(** From [w] to [w'] the memo of [_latest_tag] is the same. *)
Definition same_memo (w w' : World) : Prop := latest_tag_memo w' = latest_tag_memo w.

(** The commands whose result the builder looks at, through [_run]. *)
Definition checked_commands (self : DocsBuilder) : list string :=
  [ "(cd ../../; invoke api-docs)"; "git checkout " +:+ recorded_checkout self ].

(** If the tree of [w] is well formed, so is that of [w']. *)
Definition stays_well_formed (w w' : World) : Prop :=
  Fs.well_formed (fs (sys w)) → Fs.well_formed (fs (sys w')).

(** Collaborators that leave a well-formed tree well formed. *)
Record tidy (env : Env) : Prop := {
  tidy_run : ∀ c dir s o s',
    run env c dir s = (o, s') → Fs.well_formed (fs s) → Fs.well_formed (fs s');
  tidy_prepare_prior_version : ∀ v dir s o s',
    prepare_prior_version env v dir s = (o, s') →
    Fs.well_formed (fs s) → Fs.well_formed (fs s');
  tidy_prepare_prior_versions : ∀ vs dir s o s',
    prepare_prior_versions env vs dir s = (o, s') →
    Fs.well_formed (fs s) → Fs.well_formed (fs s') }.

(** From [w] to [w'] the trace only grew, and command [c] was not issued. *)
Definition before_command (c : string) : relation World :=
  extends_by (λ ev, ev ≠ ERun c).




(* ===================================================================== *)
(** * Part II: lemmas and theorems                                       *)
(* ===================================================================== *)

Example split_demo : PyStr.split ("0.9.0" +:+ String "010"%char "0.15.2 v1" +:+ String "010"%char "") = ["0.9.0"; "0.15.2"; "v1"].
Proof. vm_compute. reflexivity. Qed.

Example tag_match_demo :
  Re.matches _tag_regex "0.15.2" = true ∧ Re.matches _tag_regex "1.2rc1" = true ∧
  Re.matches _tag_regex "v1.2" = false ∧ Re.matches _tag_regex "12" = false ∧
  Re.fullmatch _tag_regex "1.2rc1" = false ∧ Re.fullmatch _tag_regex "0.15.2" = true.
Proof. vm_compute. repeat split. Qed.

Example sorted_demo : PyStr.sorted ["0.9.0"; "0.15.2"; "0.10.1"] = ["0.10.1"; "0.15.2"; "0.9.0"].
Proof. vm_compute. reflexivity. Qed.

Example strip_demo : PyStr.strip (" main" +:+ String "010"%char "") = "main".
Proof. vm_compute. reflexivity. Qed.

(** ** Strings *)

Lemma split_on_nonempty sep s : PyStr.split_on sep s ≠ [].
Proof. destruct s as [|a s]; simpl; [done|]. case_decide; [done|]. by destruct (PyStr.split_on sep s). Qed.

Lemma join_cons sep x y l :
  PyStr.join sep (x :: y :: l) = x +:+ sep +:+ PyStr.join sep (y :: l).
Proof. reflexivity. Qed.

(** Joining what [split] produced gives back the string. *)
Lemma join_split_on sep s : PyStr.join (String sep EmptyString) (PyStr.split_on sep s) = s.
Proof.
  induction s as [|a s IH]; [done|].
  simpl. pose proof (split_on_nonempty sep s) as Hne.
  destruct (PyStr.split_on sep s) as [|w ws] eqn:E; [done|].
  case_decide as Ha.
  - subst a. rewrite join_cons, IH. reflexivity.
  - destruct ws as [|w' ws].
    + simpl in *. by rewrite IH.
    + rewrite join_cons. rewrite join_cons in IH. by rewrite <- IH.
Qed.

(** ** Version *)

(** C8. Every string that matches the numeric-dot-numeric pattern parses to
    a [Version], and converting that version back to a string gives the
    string it was parsed from. *)
Theorem version_round_trip (s : string) :
  Re.fullmatch _tag_regex s = true →
  ∃ v, VersionOps.from_string s = Some v ∧ VersionOps.to_string v = s.
Proof.
  intros Hm. unfold VersionOps.from_string. rewrite Hm.
  eexists. split; [reflexivity|].
  unfold VersionOps.to_string. simpl. apply (join_split_on "."%char).
Qed.

Lemma version_round_trip_witness :
  Re.fullmatch _tag_regex "0.15.2" = true ∧
  ∃ v, VersionOps.from_string "0.15.2" = Some v ∧ VersionOps.to_string v = "0.15.2".
Proof. split; [reflexivity | apply (version_round_trip "0.15.2"); reflexivity]. Defined.

(** ** Reasoning about the monad *)

Lemma bind_unfold {A B} (m : M A) (f : A → M B) (w : World) :
  (m ≫= f) w = match m w with
               | (Ok a, w') => f a w'
               | (Raised e, w') => (Raised e, w')
               end.
Proof. reflexivity. Qed.

Lemma bind_inv {A B} (m : M A) (f : A → M B) w r w' :
  (m ≫= f) w = (r, w') →
  (∃ a w1, m w = (Ok a, w1) ∧ f a w1 = (r, w')) ∨
  (∃ e, m w = (Raised e, w') ∧ r = Raised e).
Proof.
  rewrite bind_unfold. destruct (m w) as [[a|e] w1]; intros H.
  - left. eauto.
  - right. inversion H; subst. eauto.
Qed.

Lemma bind_Ok_inv {A B} (m : M A) (f : A → M B) w b w' :
  (m ≫= f) w = (Ok b, w') →
  ∃ a w1, m w = (Ok a, w1) ∧ f a w1 = (Ok b, w').
Proof. intros [H|(e & _ & [=])]%bind_inv; done. Qed.

Lemma bind_Ok_eq {A B} (m : M A) (f : A → M B) w a w1 :
  m w = (Ok a, w1) → (m ≫= f) w = f a w1.
Proof. intros H. by rewrite bind_unfold, H. Qed.



Section keeps.
Context (R : relation World) `{!PreOrder R}.

Lemma keeps_ret {A} (a : A) : keeps R (mret a).
Proof. intros w r w' [= <- <-]. reflexivity. Qed.

Lemma keeps_raise {A} e : keeps R (raise (A:=A) e).
Proof. intros w r w' [= <- <-]. reflexivity. Qed.

Lemma keeps_lift {A} (x : res A) : keeps R (lift x).
Proof. intros w r w' [= <- <-]. reflexivity. Qed.

Lemma keeps_get : keeps R get.
Proof. intros w r w' [= <- <-]. reflexivity. Qed.

Lemma keeps_bind {A B} (m : M A) (f : A → M B) :
  keeps R m → (∀ a, keeps R (f a)) → keeps R (m ≫= f).
Proof.
  intros Hm Hf w r w' [(a & w1 & H1 & H2)|(e & H1 & _)]%bind_inv.
  - etrans; [by eapply Hm | by eapply Hf].
  - by eapply Hm.
Qed.

Lemma keeps_get_bind {A} (f : World → M A) :
  (∀ w r w', f w w = (r, w') → R w w') → keeps R (get ≫= f).
Proof. intros Hf w r w' H. rewrite bind_unfold in H. simpl in H. by eapply Hf. Qed.

Lemma keeps_mapM {A B} (f : A → M B) (l : list A) :
  (∀ a, keeps R (f a)) → keeps R (mapM f l).
Proof.
  intros Hf. induction l as [|a l IH]; simpl.
  - apply keeps_ret.
  - apply keeps_bind; [apply Hf|]. intros b.
    apply keeps_bind; [apply IH|]. intros bs. apply keeps_ret.
Qed.

Lemma keeps_emit e : (∀ w, R w (with_event e w)) → keeps R (emit e).
Proof. intros He w r w' [= <- <-]. apply He. Qed.

Context (Hio : closed_under_fs R).

Lemma keeps_os_path_exists p : keeps R (os_path_exists p).
Proof. intros w r w' [= <- <-]. reflexivity. Qed.

Lemma keeps_shutil_rmtree p : keeps R (shutil_rmtree p).
Proof.
  intros w r w'. unfold shutil_rmtree. rewrite bind_unfold. simpl.
  destruct (Fs.node_at _ _) as [[]|]; intros [= <- <-]; try reflexivity. apply Hio.
Qed.

Lemma keeps_os_mkdir p : keeps R (os_mkdir p).
Proof.
  intros w r w'. unfold os_mkdir. rewrite bind_unfold. simpl.
  destruct (Fs.node_at _ p) as [[]|]; [intros [= <- <-]; reflexivity..|].
  destruct (Fs.node_at _ _) as [[]|]; intros [= <- <-]; try reflexivity. apply Hio.
Qed.

Lemma keeps_read_text p : keeps R (read_text p).
Proof.
  intros w r w'. unfold read_text. rewrite bind_unfold. simpl.
  destruct (Fs.node_at _ _) as [[]|]; intros [= <- <-]; reflexivity.
Qed.

Lemma keeps_shutil_move src dst : keeps R (shutil_move src dst).
Proof.
  intros w r w'. unfold shutil_move. rewrite bind_unfold. simpl.
  repeat (case_match; simplify_eq/=); intros [= <- <-]; try reflexivity; apply Hio.
Qed.

Lemma keeps_check_open z : keeps R (check_open z).
Proof.
  intros w r w'. unfold check_open. rewrite bind_unfold. simpl.
  case_decide; intros [= <- <-]; reflexivity.
Qed.

Lemma keeps_extractall z root : keeps R (extractall z root).
Proof.
  intros w r w'. unfold extractall, check_open. rewrite !bind_unfold. simpl.
  case_decide; simpl; [|intros [= <- <-]; reflexivity].
  rewrite bind_unfold. simpl.
  destruct (Zip.extract_all _ _ _) as [[] t]; simpl; intros [= <- <-]; apply Hio.
Qed.

Lemma keeps_zip_read z nm : keeps R (zip_read z nm).
Proof.
  unfold zip_read. apply keeps_bind; [apply keeps_check_open|]. intros _.
  destruct (Zip.read _ _); [apply keeps_ret | apply keeps_raise].
Qed.

End keeps.

Example sim_loads_demo :
  Sim.loads (Sim.versions_json ["0.15.2"; "0.14.13"]) = Some (JArray [JString "0.15.2"; JString "0.14.13"]).
Proof. vm_compute. reflexivity. Qed.

Example sim_init_demo :
  (__init__ (Sim.env "" []) Sim.docusaurus false true (Sim.world Sim.base_fs)).1 = Ok (Sim.builder true).
Proof. vm_compute. reflexivity. Qed.

(** ** The latest tag *)

Lemma sorted_last_is_max (l : list string) (t : string) :
  last (PyStr.sorted l) = Some t →
  t ∈ l ∧ ∀ t', t' ∈ l → String.le t' t.
Proof.
  unfold PyStr.sorted. intros [l0 Hl]%last_Some.
  pose proof (merge_sort_Permutation String.le l) as Hperm.
  pose proof (StronglySorted_merge_sort String.le l) as Hsorted.
  rewrite Hl in Hperm, Hsorted. split.
  - rewrite <- Hperm. set_solver.
  - intros t' Ht'. rewrite <- Hperm in Ht'.
    apply elem_of_app in Ht' as [Ht'|Ht'].
    + eapply (StronglySorted_app_1_elem_of String.le); [done..|]. set_solver.
    + apply list_elem_of_singleton in Ht' as ->. reflexivity.
Qed.

Lemma sorted_last_is_Some (l : list string) : l ≠ [] → is_Some (last (PyStr.sorted l)).
Proof.
  intros Hne. unfold PyStr.sorted.
  pose proof (merge_sort_Permutation String.le l) as Hperm.
  destruct (merge_sort String.le l) as [|x l'] eqn:E.
  - apply Permutation_nil_l in Hperm. congruence.
  - rewrite last_is_Some. done.
Qed.


(** C9. On first use, when [git tag] printed [out] and some tag matches the
    pattern, [_latest_tag] returns (and memoises) a matching tag that is
    above every matching tag in the lexicographic order of strings.  That is
    not the order of release numbers: with tags 0.9.0 and 0.15.2 it returns
    0.9.0, the older release. *)
Theorem latest_tag_is_lexicographic_max :
  (∀ env w out w1,
     latest_tag_memo w = None →
     _run env "git tag" w = (Ok (Some out), w1) →
     matching_tags out ≠ [] →
     ∃ t, _latest_tag env w = (Ok t, with_memo t w1) ∧
          t ∈ matching_tags out ∧
          ∀ t', t' ∈ matching_tags out → String.le t' t) ∧
  (let out := "0.9.0" +:+ newline +:+ "0.15.2" +:+ newline in
   "0.9.0" ∈ matching_tags out ∧ "0.15.2" ∈ matching_tags out ∧
   (_latest_tag (Sim.env out []) (Sim.world Sim.base_fs)).1 = Ok "0.9.0" ∧
   VersionOps.numeric_lt "0.9.0" "0.15.2" = true).
Proof.
  split.
  - intros env w out w1 Hmemo Hrun Hne.
    destruct (sorted_last_is_Some _ Hne) as [t Ht].
    exists t. split; [|by apply sorted_last_is_max].
    unfold _latest_tag. rewrite bind_unfold. simpl. rewrite Hmemo.
    rewrite (bind_Ok_eq _ _ _ _ _ Hrun).
    fold (matching_tags out). rewrite Ht. reflexivity.
  - vm_compute. repeat split; set_solver.
Qed.

Lemma latest_tag_is_lexicographic_max_witness :
  let env := Sim.env "v1 0.9.0 0.15.2" [] in
  let w := Sim.world Sim.base_fs in
  ∃ t, (_latest_tag env w).1 = Ok t ∧
       t ∈ matching_tags "v1 0.9.0 0.15.2" ∧
       ∀ t', t' ∈ matching_tags "v1 0.9.0 0.15.2" → String.le t' t.
Proof.
  intros env w.
  destruct (proj1 latest_tag_is_lexicographic_max env w "v1 0.9.0 0.15.2"
              (with_sys (sys w) (with_event (ERun "git tag") w)))
    as (t & Ht & Hin & Hmax); [reflexivity | reflexivity | by vm_compute |].
  exists t. rewrite Ht. done.
Defined.

(** ** Exceptions are not caught *)

Section on_raise.
Context (P : exn → World → Prop).

Lemma on_raise_ret {A} (a : A) : on_raise P (mret a).
Proof. intros w e w' [=]. Qed.

Lemma on_raise_bind {A B} (m : M A) (f : A → M B) :
  on_raise P m → (∀ a, on_raise P (f a)) → on_raise P (m ≫= f).
Proof.
  intros Hm Hf w e w' [(a & w1 & H1 & H2)|(e' & H1 & [= <-])]%bind_inv.
  - by eapply Hf.
  - by eapply Hm.
Qed.

Lemma on_raise_get_bind {A} (f : World → M A) :
  (∀ w, on_raise P (f w)) → on_raise P (get ≫= f).
Proof. intros Hf w e w' H. rewrite bind_unfold in H. simpl in H. by eapply Hf. Qed.


End on_raise.


(** The library calls raise errors of their own kinds. *)
Ltac library_error :=
  let c := fresh in let c' := fresh in
  intros ? ? ?; unfold os_path_exists, shutil_rmtree, os_mkdir, os_chdir, read_text,
    write_text, shutil_move, check_open, extractall, zip_read, emit, lift, raise, get, put;
  repeat (rewrite bind_unfold; simpl);
  repeat (case_match; simplify_eq/=; repeat (rewrite bind_unfold; simpl));
  intros c' c; inversion c'; subst; unfold failed; discriminate.

Lemma os_path_exists_no_failure p : on_raise not_a_failure (os_path_exists p).
Proof. intros w e w' [=]. Qed.
Lemma shutil_rmtree_no_failure p : on_raise not_a_failure (shutil_rmtree p).
Proof. library_error. Qed.
Lemma os_mkdir_no_failure p : on_raise not_a_failure (os_mkdir p).
Proof. library_error. Qed.
Lemma os_chdir_no_failure p : on_raise not_a_failure (os_chdir p).
Proof. library_error. Qed.
Lemma read_text_no_failure p : on_raise not_a_failure (read_text p).
Proof. library_error. Qed.
Lemma write_text_no_failure p c : on_raise not_a_failure (write_text p c).
Proof. library_error. Qed.
Lemma shutil_move_no_failure src dst : on_raise not_a_failure (shutil_move src dst).
Proof. library_error. Qed.
Lemma check_open_no_failure z : on_raise not_a_failure (check_open z).
Proof. library_error. Qed.
Lemma raise_no_failure {A} e : (∀ c, e ≠ failed c) → on_raise not_a_failure (raise (A:=A) e).
Proof. intros He w e' w' [= <- <-]. exact He. Qed.
Lemma extractall_no_failure z root : on_raise not_a_failure (extractall z root).
Proof.
  unfold extractall. apply on_raise_bind; [apply check_open_no_failure|]. intros _.
  apply on_raise_get_bind. intros w.
  destruct (Zip.extract_all _ _ _) as [done t].
  apply on_raise_bind; [intros ??? [=]|]. intros _.
  destruct done; [apply on_raise_ret | by apply raise_no_failure].
Qed.
Lemma zip_read_no_failure z nm : on_raise not_a_failure (zip_read z nm).
Proof.
  unfold zip_read. apply on_raise_bind; [apply check_open_no_failure|]. intros _.
  destruct (Zip.read _ _); [apply on_raise_ret | by apply raise_no_failure].
Qed.
Lemma emit_no_failure e : on_raise not_a_failure (emit e).
Proof. intros w e' w' [=]. Qed.



Lemma last_with_event e w : last (trace (with_event e w)) = Some e.
Proof. simpl. apply last_snoc. Qed.

Create HintDb no_failure.
#[local] Hint Resolve os_path_exists_no_failure shutil_rmtree_no_failure os_mkdir_no_failure
  os_chdir_no_failure read_text_no_failure write_text_no_failure shutil_move_no_failure
  check_open_no_failure extractall_no_failure zip_read_no_failure emit_no_failure
  : no_failure.


Section failures.
Context (env : Env).
















End failures.

(** ** Frames of the methods *)

#[global] Instance extends_by_preorder P : PreOrder (extends_by P).
Proof.
  split.
  - intros w. exists []. by rewrite app_nil_r.
  - intros w1 w2 w3 (e1 & H1 & F1) (e2 & H2 & F2). exists (e1 ++ e2).
    split; [by rewrite H2, H1, app_assoc | by apply Forall_app].
Qed.

Lemma extends_by_event (P : event → Prop) e w : P e → extends_by P w (with_event e w).
Proof. intros He. exists [e]. split; [done | by constructor]. Qed.

Lemma extends_by_same_trace (P : event → Prop) w w' : trace w' = trace w → extends_by P w w'.
Proof. intros H. exists []. by rewrite app_nil_r. Qed.

Lemma extends_by_io (P : event → Prop) :
  (∀ b msg, P (ELog b msg)) → (∀ h, P (EOpen h)) → (∀ h, P (EClose h)) →
  closed_under_io (extends_by P).
Proof.
  intros Hlog Hopen Hclose. split; [split|..].
  - intros w t. by apply extends_by_same_trace.
  - intros w b msg. by apply extends_by_event.
  - intros w h. exists [EOpen h]. split; [done | by constructor].
  - intros w h. exists [EClose h]. split; [done | by constructor].
Qed.

Section load_zip.
Context (env : Env) (R : relation World) `{!PreOrder R} (Hio : closed_under_io R).

Lemma keeps_load_zip {A} url (body : ZipFile → M A) :
  (∀ z, keeps R (body z)) → keeps R (_load_zip env url body).
Proof.
  intros Hbody w r w'. unfold _load_zip.
  destruct (remote env url) as [| |ms]; [by intros [= <- <-]..|].
  destruct (body _ _) as [r' w2] eqn:Hb. intros [= <- <-].
  etrans; [apply (io_open R Hio)|]. etrans; [by eapply Hbody|]. apply (io_close R Hio).
Qed.

End load_zip.

Section frames.
Context (env : Env) (R : relation World) `{!PreOrder R} (Hfs : closed_under_fs R).
Context (Hzip : ∀ A url (body : ZipFile → M A),
                  (∀ z, keeps R (body z)) → keeps R (_load_zip env url body)).

Lemma keeps_context_run c :
  (∀ w s, R w (with_sys s (with_event (ERun c) w))) → keeps R (context_run env c).
Proof.
  intros Hc w r w'. unfold context_run.
  destruct (run env c (cwd w) (sys w)) as [[o|what] s]; intros [= <- <-]; apply Hc.
Qed.

Lemma keeps_run c :
  (∀ w s, R w (with_sys s (with_event (ERun c) w))) → keeps R (_run env c).
Proof.
  intros Hc. unfold _run. apply keeps_bind; [done | by apply keeps_context_run |].
  intros [r|]; [|by apply keeps_ret].
  destruct (truthy r); simpl; [|by apply keeps_ret].
  destruct (ok r); simpl; [by apply keeps_ret | by apply keeps_raise].
Qed.

Lemma keeps_load_all_versioned_docs self : keeps R (_load_all_versioned_docs env self).
Proof.
  unfold _load_all_versioned_docs.
  apply keeps_bind; [done | apply keeps_emit; intros; apply (io_log R Hfs) |]. intros _.
  apply keeps_get_bind. intros w. revert w. fold (keeps (A:=list Version) R).
  intros w0. apply keeps_bind; [done | by apply keeps_os_path_exists |]. intros there.
  apply keeps_bind; [done | |].
  { destruct there; [by apply keeps_shutil_rmtree | by apply keeps_ret]. }
  intros _. apply keeps_bind; [done | by apply keeps_os_mkdir |]. intros _.
  apply Hzip. intros z.
  apply keeps_bind; [done | by apply keeps_extractall |]. intros _.
  apply keeps_bind; [done | by apply keeps_zip_read |]. intros js.
  destruct (json_loads env js); [|by apply keeps_raise].
  apply keeps_bind; [done | by apply keeps_lift |]. intros items. by apply keeps_lift.
Qed.

Lemma keeps_load_versioned_code self v : keeps R (_load_versioned_code env self v).
Proof.
  unfold _load_versioned_code.
  apply keeps_bind; [done | apply keeps_emit; intros; apply (io_log R Hfs) |]. intros _.
  apply Hzip. intros z.
  apply keeps_bind; [done | by apply keeps_extractall |]. intros _.
  by apply keeps_shutil_move.
Qed.

Lemma keeps_invoke_api_docs :
  (∀ w s, R w (with_sys s (with_event (ERun "(cd ../../; invoke api-docs)") w))) →
  keeps R (_invoke_api_docs env).
Proof.
  intros Hc. unfold _invoke_api_docs.
  apply keeps_bind; [done | apply keeps_emit; intros; apply (io_log R Hfs) |]. intros _.
  apply keeps_bind; [done | by apply keeps_run |]. intros _. by apply keeps_ret.
Qed.

End frames.







Lemma checkout_restoration_build_docs_demo :
  let env := Sim.env "" [Sim.bucket [] ["0.15.2"]] in
  ∀ ref, ERun ("git checkout " +:+ ref)
         ∉ trace (build_docs env (Sim.builder true) (Sim.world Sim.base_fs)).2.
Proof.
  intros env ref.
  assert (trace (build_docs env (Sim.builder true) (Sim.world Sim.base_fs)).2
          = [ELog true "Preparing to build docs...";
             ELog false "Copying previous versioned docs from https://bucket.example/oss_docs_versions.zip";
             EOpen 0; EClose 0; ELog false "Invoking api-docs...";
             ERun "(cd ../../; invoke api-docs)"; ELog true "Building docusaurus docs...";
             ERun "yarn build"]) as -> by (vm_compute; reflexivity).
  rewrite !elem_of_cons, elem_of_nil. intros H.
  repeat (destruct H as [[=]|H]); done.
Qed.

(** ** Archive handles *)

#[global] Instance same_handles_preorder : PreOrder same_handles.
Proof.
  split.
  - intros w _. done.
  - intros w1 w2 w3 H12 H23 Hw1. destruct (H12 Hw1) as [E12 L12].
    assert (handles_in_order w2) as Hw2.
    { intros h Hh. rewrite E12 in Hh. specialize (Hw1 h Hh). lia. }
    destruct (H23 Hw2) as [E23 L23]. split; [congruence | lia].
Qed.

Lemma same_handles_fs : closed_under_fs same_handles.
Proof. split; intros; intros _; done. Qed.

Lemma same_handles_load_zip env {A} url (body : ZipFile → M A) :
  (∀ z, keeps same_handles (body z)) → keeps same_handles (_load_zip env url body).
Proof.
  intros Hbody w r w'. unfold _load_zip.
  destruct (remote env url) as [| |ms]; [by intros [= <- <-]..|].
  destruct (body _ _) as [r' w2] eqn:Hb. intros [= <- <-] Hw.
  apply Hbody in Hb. destruct Hb as [E L].
  { intros h. simpl. rewrite elem_of_union, elem_of_singleton.
    intros [->|Hh]; [lia|]. specialize (Hw h Hh). lia. }
  simpl in *. split; [|lia]. rewrite E.
  assert (next_handle w ∉ open_handles w) as Hfresh.
  { intros Hin. specialize (Hw _ Hin). lia. }
  apply set_eq. intros h.
  rewrite elem_of_difference, elem_of_union, elem_of_singleton.
  split; [naive_solver|]. intros Hh. split; [by right|]. by intros ->.
Qed.

(** C7. The context manager closes the archive it opened whatever the body
    does: the body runs with the handle open, what it returns or raises
    comes out unchanged, and in both cases the handle is closed as the last
    thing (when the URL serves no archive nothing was opened).  For the two
    with-blocks of the module this means no handle stays open, also when
    extraction fails partway. *)
Theorem load_zip_closes_handle (env : Env) :
  (∀ A url (body : ZipFile → M A) w r w',
     _load_zip env url body w = (r, w') →
     match remote env url with
     | Zipped ms =>
         let h := next_handle w in
         (∃ w2, body (mkZipFile h ms) (with_opened h w) = (r, w2) ∧
                w' = with_closed h w2) ∧
         (h ∉ open_handles w') ∧
         last (trace w') = Some (EClose h)
     | _ => w' = w
     end) ∧
  (∀ self w r w',
     handles_in_order w →
     _load_all_versioned_docs env self w = (r, w') →
     open_handles w' = open_handles w) ∧
  (∀ self version w r w',
     handles_in_order w →
     _load_versioned_code env self version w = (r, w') →
     open_handles w' = open_handles w).
Proof.
  split; [|split].
  - intros A url body w r w'. unfold _load_zip.
    destruct (remote env url) as [| |ms]; [by intros [= <- <-]..|].
    destruct (body _ _) as [r' w2] eqn:Hb. intros [= <- <-]. simpl.
    split; [by eexists|]. split; [|apply last_snoc].
    rewrite elem_of_difference, elem_of_singleton. naive_solver.
  - intros self w r w' Hw H.
    apply (keeps_load_all_versioned_docs env same_handles same_handles_fs
             (λ A, same_handles_load_zip env)) in H.
    by apply H.
  - intros self version w r w' Hw H.
    apply (keeps_load_versioned_code env same_handles same_handles_fs
             (λ A, same_handles_load_zip env)) in H.
    by apply H.
Qed.

Lemma sim_world_handles_in_order t : handles_in_order (Sim.world t).
Proof. intros h Hh. simpl in Hh. by apply elem_of_empty in Hh. Qed.

(** A tag archive whose second member cannot be extracted: the first made a
    file where the second needs a directory. *)
Lemma load_zip_closes_handle_witness :
  let env := Sim.env "" [Sim.tag_archive "1.2.3"
               [mkMember ["great_expectations-1.2.3"; "README"] (File "r");
                mkMember ["great_expectations-1.2.3"; "README"; "x"] (File "y")]] in
  let w := Sim.world (<[Sim.docusaurus ++ ["versioned_code"] := Dir]> Sim.base_fs) in
  ∃ e w', _load_versioned_code env (Sim.builder true) (mkVersion ["1"; "2"; "3"]) w = (Raised e, w') ∧
          handles_in_order w ∧
          open_handles w' = open_handles w.
Proof.
  intros env w.
  assert ((_load_versioned_code env (Sim.builder true) (mkVersion ["1"; "2"; "3"]) w).1
          = Raised (OSError "extract" (Sim.docusaurus ++ ["versioned_code"])))
    as Hr by (vm_compute; reflexivity).
  destruct (_load_versioned_code env (Sim.builder true) (mkVersion ["1"; "2"; "3"]) w)
    as [r w'] eqn:Hrun.
  simpl in Hr. subst r.
  pose proof (sim_world_handles_in_order
                (<[Sim.docusaurus ++ ["versioned_code"] := Dir]> Sim.base_fs)) as Hw.
  exists (OSError "extract" (Sim.docusaurus ++ ["versioned_code"])), w'.
  split; [reflexivity|]. split; [exact Hw|].
  destruct (load_zip_closes_handle env) as (_ & _ & Hcode).
  exact (Hcode _ _ _ _ _ Hw Hrun).
Defined.

(** ** What is written to the release version file *)

Lemma wrote_refl w : wrote [] w w.
Proof. exists []. by rewrite app_nil_r. Qed.

Lemma wrote_trans l1 l2 w1 w2 w3 : wrote l1 w1 w2 → wrote l2 w2 w3 → wrote (l1 ++ l2) w1 w3.
Proof.
  intros (e1 & H1 & <-) (e2 & H2 & <-). exists (e1 ++ e2). split.
  - by rewrite H2, H1, app_assoc.
  - unfold writes_of. by rewrite omap_app.
Qed.

#[global] Instance wrote_nothing_preorder : PreOrder (wrote []).
Proof.
  split; [exact wrote_refl|]. intros w1 w2 w3 H12 H23. exact (wrote_trans [] [] _ _ _ H12 H23).
Qed.




Section more_frames.
Context (env : Env) (R : relation World) `{!PreOrder R}.

Lemma keeps_os_chdir rel : (∀ w d, R w (with_cwd d w)) → keeps R (os_chdir rel).
Proof.
  intros Hcwd w r w'. unfold os_chdir. rewrite bind_unfold. simpl.
  destruct (Fs.node_at _ _) as [[]|]; intros [= <- <-]; try reflexivity. apply Hcwd.
Qed.

Lemma keeps_call_prepare_prior_version v :
  (∀ w s, R w (with_sys s w)) → keeps R (call_prepare_prior_version env v).
Proof.
  intros Hsys w r w'. unfold call_prepare_prior_version.
  destruct (prepare_prior_version env v (cwd w) (sys w)) as [[what|] s];
    intros [= <- <-]; apply Hsys.
Qed.

Lemma keeps_call_prepare_prior_versions vs :
  (∀ w s, R w (with_sys s w)) → keeps R (call_prepare_prior_versions env vs).
Proof.
  intros Hsys w r w'. unfold call_prepare_prior_versions.
  destruct (prepare_prior_versions env vs (cwd w) (sys w)) as [[what|] s];
    intros [= <- <-]; apply Hsys.
Qed.

Lemma keeps_read_prior_release_version_file : keeps R _read_prior_release_version_file.
Proof.
  intros w r w'. unfold _read_prior_release_version_file, read_text.
  repeat (rewrite bind_unfold; simpl).
  destruct (Fs.node_at _ _) as [[]|]; intros [= <- <-]; reflexivity.
Qed.

End more_frames.


#[global] Instance quietly_preorder : PreOrder quietly.
Proof.
  split.
  - intros w. split; [apply wrote_refl | done].
  - intros w1 w2 w3 [H12 C12] [H23 C23]. split; [by etrans | congruence].
Qed.




Lemma keeps_unless {R : relation World} `{!PreOrder R} {P : Prop} (b : {P} + {¬ P}) e :
  keeps R (if b then raise e else mret tt).
Proof. destruct b; [apply keeps_raise | apply keeps_ret]; apply _. Qed.

(** One step of a sequence: either it raised and the sequence ended there,
    or it returned [a] in world [w1] and the rest ran. *)
Ltac advance H Hs a w1 :=
  apply bind_inv in H as [(a & w1 & Hs & H) | (? & Hs & ->)].







(** ** The duplicate check *)

#[global] Instance undisturbed_preorder : PreOrder undisturbed.
Proof.
  split.
  - intros w. repeat split; reflexivity.
  - intros w1 w2 w3 (A1 & B1 & C1 & D1) (A2 & B2 & C2 & D2).
    repeat split; [congruence.. | by etrans].
Qed.

Lemma undisturbed_io : closed_under_io undisturbed.
Proof.
  assert (closed_under_io (extends_by (λ e, ¬ is_run e ∧ ¬ is_write e))) as H.
  { apply extends_by_io; intros; split; intros (? & H); try destruct H as (? & H); done. }
  split; [split|..]; intros; (repeat split; [done..|apply H]).
Qed.

Lemma undisturbed_load_all env self : keeps undisturbed (_load_all_versioned_docs env self).
Proof.
  apply keeps_load_all_versioned_docs; [apply _ | apply undisturbed_io |].
  intros. apply keeps_load_zip; [apply _ | apply undisturbed_io | done].
Qed.

(** C1, as amended.  When the version is among those the load returns,
    [create_version] raises the version-already-exists error right after the
    load: the world is the one the load left.  Up to there no command has
    been run, so the checkout is as it was, and no text file has been
    written; what has changed is what the load changes, the versioned_code
    directory and the files the versions archive is extracted over. *)
Theorem duplicate_version_rejected (env : Env) (self : DocsBuilder) (version : Version)
    (w w1 : World) (versions : list Version) :
  _load_all_versioned_docs env self
    (with_event (ELog true ("Creating version " +:+ VersionOps.to_string version)) w)
    = (Ok versions, w1) →
  version ∈ versions →
  create_version env self version w
    = (Raised (Exception ("Version " +:+ VersionOps.to_string version +:+ " already exists")), w1) ∧
  head (sys w1) = head (sys w) ∧ prev_head (sys w1) = prev_head (sys w) ∧
  ∃ evs, trace w1 = trace w ++ evs ∧ Forall (λ e, ¬ is_run e ∧ ¬ is_write e) evs.
Proof.
  intros Hload Hin. split.
  - unfold create_version. rewrite bind_unfold. simpl.
    rewrite (bind_Ok_eq _ _ _ _ _ Hload). rewrite bind_unfold.
    by rewrite decide_True.
  - apply undisturbed_load_all in Hload. destruct Hload as (A & B & _ & evs & Hevs & Hall).
    repeat split; [done..|].
    exists (ELog true ("Creating version " +:+ VersionOps.to_string version) :: evs).
    split.
    + rewrite Hevs. simpl. by rewrite <- app_assoc.
    + constructor; [|done]. split; intros (? & H); try destruct H as (? & H); done.
Qed.

Lemma duplicate_version_rejected_witness :
  let version := mkVersion ["0"; "15"; "2"] in
  let w := Sim.world Sim.stale_fs in
  ∃ w1, create_version Sim.demo_env (Sim.builder true) version w
          = (Raised (Exception "Version 0.15.2 already exists"), w1) ∧
        head (sys w1) = "main" ∧ prev_head (sys w1) = None.
Proof.
  intros version w.
  set (w0 := with_event (ELog true ("Creating version " +:+ VersionOps.to_string version)) w).
  assert ((_load_all_versioned_docs Sim.demo_env (Sim.builder true) w0).1 = Ok [version])
    as Hr by (vm_compute; reflexivity).
  destruct (_load_all_versioned_docs Sim.demo_env (Sim.builder true) w0) as [r w1] eqn:Hload.
  simpl in Hr. subst r.
  destruct (duplicate_version_rejected Sim.demo_env (Sim.builder true) version w w1 [version]
              Hload (list_elem_of_here _ _)) as (Hraise & Hhead & Hprev & _).
  exists w1. split; [exact Hraise|]. split; [exact Hhead | exact Hprev].
Defined.

(** C1, as stated, fails: by the time the duplicate is detected the load has
    already run.  Here the file that an earlier run left in versioned_code
    is gone and versions.json has appeared in the working tree. *)
Lemma duplicate_version_rejected_counterexample :
  let version := mkVersion ["0"; "15"; "2"] in
  let w := Sim.world Sim.stale_fs in
  let stale := Sim.docusaurus ++ ["versioned_code"; "stale.txt"] in
  let listing := Sim.docusaurus ++ ["versions.json"] in
  let w' := (create_version Sim.demo_env (Sim.builder true) version w).2 in
  (create_version Sim.demo_env (Sim.builder true) version w).1
    = Raised (Exception "Version 0.15.2 already exists") ∧
  fs (sys w) !! stale = Some (File "old") ∧ fs (sys w') !! stale = None ∧
  fs (sys w) !! listing = None ∧ is_Some (fs (sys w') !! listing) ∧
  Fs.subtree (Sim.docusaurus ++ ["versioned_code"]) (fs (sys w'))
    ≠ Fs.subtree (Sim.docusaurus ++ ["versioned_code"]) (fs (sys w)).
Proof.
  intros version w stale listing w'.
  assert (fs (sys w') !! stale = None) as Hgone by (vm_compute; reflexivity).
  assert (fs (sys w) !! stale = Some (File "old")) as Hthere by (vm_compute; reflexivity).
  split; [vm_compute; reflexivity|].
  split; [exact Hthere|]. split; [exact Hgone|].
  split; [vm_compute; reflexivity|].
  split; [vm_compute; eexists; reflexivity|].
  intros Heq.
  assert (Fs.subtree (Sim.docusaurus ++ ["versioned_code"]) (fs (sys w)) !! stale
          = Some (File "old")) as H1.
  { apply map_lookup_filter_Some. split; [exact Hthere|]. by exists ["stale.txt"]. }
  rewrite <- Heq in H1. apply map_lookup_filter_Some in H1 as [H1 _]. congruence.
Qed.

(** ** The file system *)

Lemma same_kind_refl n : Fs.same_kind n n = true.
Proof. by destruct n. Qed.

Lemma same_kind_sym n1 n2 : Fs.same_kind n1 n2 = true → Fs.same_kind n2 n1 = true.
Proof. by destruct n1, n2. Qed.

Lemma same_kind_trans n1 n2 n3 :
  Fs.same_kind n1 n2 = true → Fs.same_kind n2 n3 = true → Fs.same_kind n1 n3 = true.
Proof. by destruct n1, n2, n3. Qed.

Lemma same_kind_Dir n : Fs.same_kind Dir n = true → n = Dir.
Proof. by destruct n. Qed.

Lemma agrees_spec (t delta : gmap (list string) node) :
  Fs.agrees t delta = true ↔
  ∀ p n, delta !! p = Some n → ∀ n', t !! p = Some n' → Fs.same_kind n' n = true.
Proof.
  unfold Fs.agrees. rewrite bool_decide_eq_true. unfold map_Forall. split.
  - intros H p n Hp n' Hn'. specialize (H p n Hp). by rewrite Hn' in H.
  - intros H p n Hp. destruct (t !! p) as [n'|] eqn:Hn'; [|done]. simpl. eauto.
Qed.

Lemma lookup_rmtree (d : list string) (t : gmap (list string) node) (p : list string) :
  Fs.rmtree d t !! p = if decide (d `prefix_of` p) then None else t !! p.
Proof.
  unfold Fs.rmtree. case_decide as Hp.
  - apply map_lookup_filter_None. right. intros n _. simpl. tauto.
  - destruct (t !! p) as [n|] eqn:Hn.
    + apply map_lookup_filter_Some. done.
    + apply map_lookup_filter_None. by left.
Qed.

Lemma lookup_subtree (d : list string) (t : gmap (list string) node) (p : list string) :
  Fs.subtree d t !! p = if decide (d `prefix_of` p) then t !! p else None.
Proof.
  unfold Fs.subtree. case_decide as Hp.
  - destruct (t !! p) as [n|] eqn:Hn.
    + apply map_lookup_filter_Some. done.
    + apply map_lookup_filter_None. by left.
  - apply map_lookup_filter_None. right. intros n _. done.
Qed.

Lemma node_at_lookup (t : gmap (list string) node) (p : list string) :
  p ≠ [] → Fs.node_at t p = t !! p.
Proof. by destruct p. Qed.

(** Extraction never changes the kind of what is already there. *)
Lemma extract_member_kind root m t t' :
  Zip.extract_member root m t = Some t' →
  ∀ p n, t !! p = Some n → ∃ n', t' !! p = Some n' ∧ Fs.same_kind n n' = true.
Proof.
  unfold Zip.extract_member. destruct (Zip.writes _ _) as [delta|]; [|done].
  destruct (Fs.agrees t delta) eqn:Hag; [|done]. intros [= <-] p n Hp.
  rewrite agrees_spec in Hag. rewrite lookup_union.
  destruct (delta !! p) as [n'|] eqn:Hd.
  - exists n'. rewrite Hp. simpl. split; [done|]. eauto.
  - exists n. rewrite Hp. split; [done | apply same_kind_refl].
Qed.

Lemma extract_all_kind root ms t b t' :
  Zip.extract_all root ms t = (b, t') →
  ∀ p n, t !! p = Some n → ∃ n', t' !! p = Some n' ∧ Fs.same_kind n n' = true.
Proof.
  revert t. induction ms as [|m ms IH]; intros t; simpl.
  - intros [= _ <-] p n Hp. exists n. split; [done | apply same_kind_refl].
  - destruct (Zip.extract_member root m t) as [t1|] eqn:Hm.
    + intros Hrest p n Hp.
      destruct (extract_member_kind _ _ _ _ Hm p n Hp) as (n1 & Hp1 & K1).
      destruct (IH _ Hrest p n1 Hp1) as (n2 & Hp2 & K2).
      exists n2. split; [done | by eapply same_kind_trans].
    + intros [= _ <-] p n Hp. exists n. split; [done | apply same_kind_refl].
Qed.

(** Extracting again over a tree that holds, at each path, either what was
    there before the extraction or what the extraction left, ends the same
    way and leaves the same tree. *)
Lemma extract_all_replay root ms t b t' t'' :
  Zip.extract_all root ms t = (b, t') →
  (∀ p, t'' !! p = t !! p ∨ t'' !! p = t' !! p) →
  Zip.extract_all root ms t'' = (b, t').
Proof.
  revert t t''. induction ms as [|m ms IH]; intros t t''; simpl.
  - intros [= <- <-] Hpt. f_equal. apply map_eq. intros p. by destruct (Hpt p).
  - destruct (Zip.extract_member root m t) as [t1|] eqn:Hm.
    + intros Hrest Hpt. revert Hm. unfold Zip.extract_member.
      destruct (Zip.writes _ _) as [delta|]; [|done].
      destruct (Fs.agrees t delta) eqn:Hag; [|done]. intros [= <-].
      assert (Fs.agrees t'' delta = true) as ->.
      { rewrite agrees_spec in Hag |- *. intros p n Hd n'' Hn''.
        destruct (Hpt p) as [E|E]; rewrite E in Hn''; [by eapply Hag|].
        destruct (extract_all_kind _ _ _ _ _ Hrest p n) as (n1 & Hn1 & K).
        { rewrite lookup_union, Hd. by destruct (t !! p). }
        rewrite Hn'' in Hn1. injection Hn1 as <-. by apply same_kind_sym. }
      apply (IH _ _ Hrest). intros p. rewrite !lookup_union.
      destruct (delta !! p) as [n|] eqn:Hd.
      * left. by destruct (t'' !! p), (t !! p).
      * rewrite !(left_id None _). apply Hpt.
    + intros [= <- <-] Hpt.
      assert (t'' = t) as -> by (apply map_eq; intros p; by destruct (Hpt p)).
      by rewrite Hm.
Qed.

(** ** Loading all versioned docs *)

Lemma with_fs_same w : with_fs (fs (sys w)) w = w.
Proof. by destruct w as [[] ?????]. Qed.

Lemma versioned_code_path dir : Fs.resolve dir "versioned_code" = dir ++ ["versioned_code"].
Proof. reflexivity. Qed.

(** The first three steps compute [recreate]. *)
Lemma recreate_steps {A} (d : list string) (k : M A) (w : World) :
  (there ← os_path_exists d;
   (if there : bool then shutil_rmtree d else mret tt);;
   os_mkdir d;; k) w
  = match recreate d (fs (sys w)) with
    | (Some e, t0) => (Raised e, with_fs t0 w)
    | (None, t1) => k (with_fs t1 w)
    end.
Proof.
  unfold os_path_exists, recreate. repeat (rewrite bind_unfold; simpl).
  destruct (Fs.node_at (fs (sys w)) d) as [[c|]|] eqn:Hd; simpl.
  - unfold shutil_rmtree. repeat (rewrite bind_unfold; simpl). rewrite Hd. simpl.
    by rewrite with_fs_same.
  - unfold shutil_rmtree. repeat (rewrite bind_unfold; simpl). rewrite Hd. simpl.
    unfold os_mkdir. repeat (rewrite bind_unfold; simpl).
    destruct (Fs.node_at (Fs.rmtree d _) d) as [n|]; [done|].
    destruct (Fs.node_at (Fs.rmtree d _) (Fs.parent d)) as [[c|]|]; simpl; done.
  - unfold os_mkdir. repeat (rewrite bind_unfold; simpl). rewrite Hd.
    destruct (Fs.node_at _ (Fs.parent d)) as [[c|]|]; simpl; by rewrite ?with_fs_same.
Qed.

(** The with-block computes [unpack]. *)
Lemma unpack_steps env self w :
  let body := λ zip_ref : ZipFile,
    extractall zip_ref (_current_directory self);;
    versions_json ← zip_read zip_ref "versions.json";
    match json_loads env versions_json with
    | None => raise (ValueError "JSONDecodeError")
    | Some value => items ← lift (iterate value); lift (versions_of items)
    end in
  ∃ w', _load_zip env (S3_URL env) body w = ((unpack env self (fs (sys w))).1, w') ∧
        leaves_tree (unpack env self (fs (sys w))).2 w w'.
Proof.
  intros body. unfold _load_zip, unpack.
  destruct (remote env (S3_URL env)) as [| |ms]; [by eexists..|].
  unfold body, extractall, check_open. repeat (rewrite bind_unfold; simpl).
  rewrite decide_True by (apply elem_of_union_l, elem_of_singleton; done).
  simpl. rewrite bind_unfold. simpl.
  destruct (Zip.extract_all _ ms _) as [[] t'] eqn:Hx; simpl.
  - unfold zip_read, check_open, listed_versions. repeat (rewrite bind_unfold; simpl).
    rewrite decide_True by (apply elem_of_union_l, elem_of_singleton; done). simpl.
    destruct (Zip.read _ ms) as [text|]; simpl; [|by eexists].
    destruct (json_loads env text) as [value|]; simpl; [|by eexists].
    unfold lift. rewrite bind_unfold.
    destruct (iterate value) as [items|e]; simpl; [|by eexists].
    destruct (versions_of items); by eexists.
  - by eexists.
Qed.

Lemma load_all_spec env self w :
  ∃ w', _load_all_versioned_docs env self w
          = ((load_outcome env self (cwd w) (fs (sys w))).1, w') ∧
        leaves_tree (load_outcome env self (cwd w) (fs (sys w))).2 w w'.
Proof.
  unfold _load_all_versioned_docs, load_outcome, logger_print, emit.
  rewrite bind_unfold. simpl. rewrite bind_unfold. simpl.
  rewrite recreate_steps. simpl.
  destruct (recreate _ _) as [[e|] t1]; [by eexists|].
  destruct (unpack_steps env self
              (with_fs t1 (with_event (ELog false ("Copying previous versioned docs from "
                                                    +:+ S3_URL env)) w)))
    as (w' & Hrun & Hfs & Hhead & Hprev & Hcwd).
  exists w'. split; [exact Hrun|]. by repeat split.
Qed.

Lemma prefix_of_snoc_not (dir : list string) (x : string) : ¬ (dir ++ [x]) `prefix_of` dir.
Proof.
  intros H%prefix_length. rewrite length_app in H. simpl in H. lia.
Qed.

Lemma ancestors_spec (a p : list string) :
  a ∈ Fs.ancestors p ↔ a ≠ [] ∧ a `prefix_of` p ∧ a ≠ p.
Proof.
  unfold Fs.ancestors. rewrite list_elem_of_fmap. split.
  - intros (n & -> & Hn). apply elem_of_seq in Hn.
    assert (length (take n p) = n) as Hlen by (rewrite length_take; lia).
    repeat split.
    + intros E. rewrite E in Hlen. simpl in Hlen. lia.
    + exists (drop n p). by rewrite take_drop.
    + intros E. rewrite E in Hlen. lia.
  - intros (Hne & [q ->] & Hneq). exists (length a). split.
    + by rewrite take_app_length.
    + apply elem_of_seq. rewrite length_app.
      destruct a; [done|]. destruct q; [by rewrite app_nil_r in Hneq|]. simpl. lia.
Qed.

(** In a well-formed tree nothing lies below a path that is not there. *)
Lemma well_formed_below (t : gmap (list string) node) (d p : list string) :
  Fs.well_formed t → d ≠ [] → t !! d = None → d `prefix_of` p → t !! p = None.
Proof.
  intros Hwf Hne Hd Hp. destruct (t !! p) as [n|] eqn:Hn; [|done].
  destruct (decide (d = p)) as [->|Hdp]; [congruence|].
  specialize (Hwf p n Hn). simpl in Hwf. rewrite Forall_forall in Hwf.
  rewrite (Hwf d) in Hd; [done|]. by apply ancestors_spec.
Qed.

(** The outcome of [recreate] on a directory [dir/x], by cases. *)
Lemma recreate_outcome (dir : list string) (x : string) (t : gmap (list string) node) :
  let d := dir ++ [x] in
  (∀ p, d `prefix_of` p → t !! d = None → t !! p = None) →
  match recreate d t with
  | (Some e, t0) => recreate d t0 = (Some e, t0)
  | (None, t1) =>
      t1 = <[d := Dir]> (Fs.rmtree d t) ∧ Fs.node_at t1 dir = Some Dir
  end.
Proof.
  intros d Hbelow. unfold recreate.
  assert (d ≠ []) as Hne by (unfold d; by destruct dir).
  assert (Fs.parent d = dir) as Hpar by apply removelast_last.
  assert (Fs.node_at (Fs.rmtree d t) d = None) as Hgone.
  { rewrite node_at_lookup, lookup_rmtree by done. by rewrite decide_True. }
  assert (∀ t', Fs.node_at (Fs.rmtree d t') dir = Fs.node_at t' dir) as Hdir.
  { intros t'. destruct dir as [|? ?]; [done|]. simpl. rewrite lookup_rmtree.
    rewrite decide_False; [done|]. apply prefix_of_snoc_not. }
  assert (Fs.rmtree d (Fs.rmtree d t) = Fs.rmtree d t) as Hidem.
  { apply map_eq. intros p. rewrite !lookup_rmtree. by case_decide. }
  assert (∀ t', Fs.node_at t' dir = Some Dir → Fs.node_at (<[d := Dir]> t') dir = Some Dir)
    as Hins.
  { intros t'. destruct (decide (dir = [])) as [->|Hdir']; [done|].
    rewrite !node_at_lookup by done. intros H. rewrite lookup_insert_ne; [done|].
    intros E. apply (prefix_of_snoc_not dir x). fold d. by rewrite E. }
  rewrite Hpar.
  destruct (Fs.node_at t d) as [[c|]|] eqn:Hd.
  - unfold recreate. by rewrite Hd.
  - rewrite Hgone, Hdir.
    destruct (Fs.node_at t dir) as [[c|]|] eqn:Hp.
    + unfold recreate. by rewrite ?Hgone, ?Hpar, ?Hdir, ?Hp.
    + split; [done|]. apply Hins. by rewrite Hdir.
    + unfold recreate. by rewrite ?Hgone, ?Hpar, ?Hdir, ?Hp.
  - assert (Fs.rmtree d t = t) as Hsame.
    { apply map_eq. intros p. rewrite lookup_rmtree. case_decide; [|done].
      symmetry. apply Hbelow; [done|]. by rewrite <- node_at_lookup. }
    destruct (Fs.node_at t dir) as [[c|]|] eqn:Hp.
    + unfold recreate. by rewrite ?Hd, ?Hpar, ?Hp.
    + rewrite Hsame. split; [done|]. by apply Hins.
    + unfold recreate. by rewrite ?Hd, ?Hpar, ?Hp.
Qed.

Lemma recreate_directory (dir : list string) (x : string) (t : gmap (list string) node) :
  let d := dir ++ [x] in
  t !! d = Some Dir → Fs.node_at t dir = Some Dir →
  recreate d t = (None, <[d := Dir]> (Fs.rmtree d t)).
Proof.
  intros d Hd Hdir. unfold recreate.
  assert (d ≠ []) as Hne by (unfold d; by destruct dir).
  rewrite (node_at_lookup t d Hne), Hd.
  rewrite (node_at_lookup _ d Hne), lookup_rmtree, decide_True by done.
  assert (Fs.parent d = dir) as -> by apply removelast_last.
  assert (Fs.node_at (Fs.rmtree d t) dir = Some Dir) as ->; [|done].
  destruct (decide (dir = [])) as [->|Hdir']; [done|].
  rewrite node_at_lookup in Hdir |- * by done. rewrite lookup_rmtree.
  rewrite decide_False; [done | apply prefix_of_snoc_not].
Qed.

Lemma unpack_kind env self t r t' :
  unpack env self t = (r, t') →
  ∀ p n, t !! p = Some n → ∃ n', t' !! p = Some n' ∧ Fs.same_kind n n' = true.
Proof.
  unfold unpack. destruct (remote env (S3_URL env)) as [| |ms].
  - intros [= _ <-] p n Hp. exists n. split; [done | apply same_kind_refl].
  - intros [= _ <-] p n Hp. exists n. split; [done | apply same_kind_refl].
  - destruct (Zip.extract_all _ ms t) as [b t2] eqn:Hx. intros [= _ <-].
    by eapply extract_all_kind.
Qed.

Lemma unpack_replay env self t r t' t'' :
  unpack env self t = (r, t') →
  (∀ p, t'' !! p = t !! p ∨ t'' !! p = t' !! p) →
  unpack env self t'' = (r, t').
Proof.
  unfold unpack. destruct (remote env (S3_URL env)) as [| |ms].
  - intros [= <- <-] Hpt. f_equal. apply map_eq. intros p. by destruct (Hpt p).
  - intros [= <- <-] Hpt. f_equal. apply map_eq. intros p. by destruct (Hpt p).
  - destruct (Zip.extract_all _ ms t) as [b t2] eqn:Hx. intros [= <- <-] Hpt.
    by rewrite (extract_all_replay _ _ _ _ _ _ Hx Hpt).
Qed.

(** Loading again, from the tree the load left, ends the same way and
    leaves the same tree. *)
Lemma load_outcome_again (env : Env) (self : DocsBuilder) (dir : list string)
    (t : gmap (list string) node) :
  Fs.well_formed t →
  load_outcome env self dir (load_outcome env self dir t).2 = load_outcome env self dir t.
Proof.
  intros Hwf. unfold load_outcome. rewrite versioned_code_path.
  set (d := dir ++ ["versioned_code"]).
  assert (d ≠ []) as Hne by (unfold d; by destruct dir).
  pose proof (recreate_outcome dir "versioned_code" t) as Hrec. simpl in Hrec. fold d in Hrec.
  destruct (recreate d t) as [[e|] t1].
  - simpl. rewrite Hrec; [done|]. intros p Hp Hd. by eapply well_formed_below.
  - destruct Hrec as [Ht1 Hdir]. { intros p Hp Hd. by eapply well_formed_below. }
    destruct (unpack env self t1) as [r t2] eqn:Hu. simpl.
    assert (t1 !! d = Some Dir) as Hd1 by (rewrite Ht1; apply lookup_insert_eq).
    assert (t2 !! d = Some Dir) as Hd2.
    { destruct (unpack_kind _ _ _ _ _ Hu d Dir Hd1) as (n & Hn & K).
      by apply same_kind_Dir in K as ->. }
    assert (Fs.node_at t2 dir = Some Dir) as Hdir2.
    { destruct (decide (dir = [])) as [->|Hdir']; [done|].
      rewrite node_at_lookup in Hdir |- * by done.
      destruct (unpack_kind _ _ _ _ _ Hu dir Dir Hdir) as (n & Hn & K).
      by apply same_kind_Dir in K as ->. }
    pose proof (recreate_directory dir "versioned_code" t2 Hd2 Hdir2) as Hrec2.
    simpl in Hrec2. fold d in Hrec2. rewrite Hrec2.
    apply (unpack_replay _ _ _ _ _ _ Hu). intros p.
    destruct (decide (p = d)) as [->|Hpd].
    + left. by rewrite lookup_insert_eq, Hd1.
    + rewrite lookup_insert_ne by done. rewrite lookup_rmtree. case_decide as Hp.
      * left. rewrite Ht1. rewrite lookup_insert_ne by done. rewrite lookup_rmtree.
        by rewrite decide_True.
      * by right.
Qed.

(** Unless a regular file sits at [dir/x], [recreate] starts from the tree
    without the directory, whatever was in it. *)
Lemma recreate_forgets (dir : list string) (x : string) (t : gmap (list string) node) :
  let d := dir ++ [x] in
  Fs.well_formed t → (∀ c, t !! d ≠ Some (File c)) →
  recreate d t = recreate d (Fs.rmtree d t).
Proof.
  intros d Hwf Hfile.
  assert (d ≠ []) as Hne by (unfold d; by destruct dir).
  assert (Fs.node_at (Fs.rmtree d t) d = None) as Hgone.
  { rewrite node_at_lookup, lookup_rmtree by done. by rewrite decide_True. }
  unfold recreate at 2. rewrite Hgone. unfold recreate.
  rewrite (node_at_lookup t d Hne).
  destruct (t !! d) as [[c|]|] eqn:Hd.
  - by destruct (Hfile c).
  - by rewrite Hgone.
  - assert (Fs.rmtree d t = t) as ->; [|by rewrite ?(node_at_lookup t d Hne), ?Hd].
    apply map_eq. intros p. rewrite lookup_rmtree. case_decide; [|done].
    symmetry. by eapply well_formed_below.
Qed.

(** C6. From a well-formed file system, a second call of
    [_load_all_versioned_docs] against the same remote archive ends as the
    first did, with the same result or error, and leaves the tree the first
    call left, so the listing of versioned_code is the same after each call.
    Nothing of what versioned_code held before a call survives it: two
    starting trees that differ only below versioned_code (a directory or
    absent in both) give the same outcome and the same tree. *)
Theorem load_all_is_a_clean_rebuild (env : Env) (self : DocsBuilder) :
  (∀ w r1 w1 r2 w2,
     Fs.well_formed (fs (sys w)) →
     _load_all_versioned_docs env self w = (r1, w1) →
     _load_all_versioned_docs env self w1 = (r2, w2) →
     r2 = r1 ∧ fs (sys w2) = fs (sys w1) ∧
     Fs.subtree (Fs.resolve (cwd w2) "versioned_code") (fs (sys w2))
       = Fs.subtree (Fs.resolve (cwd w1) "versioned_code") (fs (sys w1))) ∧
  (∀ w w' r1 w1 r1' w1',
     let versioned_code := Fs.resolve (cwd w) "versioned_code" in
     Fs.well_formed (fs (sys w)) → Fs.well_formed (fs (sys w')) →
     cwd w' = cwd w →
     (∀ p, ¬ versioned_code `prefix_of` p → fs (sys w') !! p = fs (sys w) !! p) →
     (∀ c, fs (sys w) !! versioned_code ≠ Some (File c)) →
     (∀ c, fs (sys w') !! versioned_code ≠ Some (File c)) →
     _load_all_versioned_docs env self w = (r1, w1) →
     _load_all_versioned_docs env self w' = (r1', w1') →
     r1' = r1 ∧ fs (sys w1') = fs (sys w1)).
Proof.
  split.
  - intros w r1 w1 r2 w2 Hwf H1 H2.
    destruct (load_all_spec env self w) as (w1' & E1 & F1 & _ & _ & C1).
    rewrite H1 in E1. injection E1 as Hr1 <-.
    destruct (load_all_spec env self w1) as (w2' & E2 & F2 & _ & _ & C2).
    rewrite H2 in E2. injection E2 as Hr2 <-.
    rewrite C1, F1, load_outcome_again in Hr2, F2 by done.
    assert (fs (sys w2) = fs (sys w1)) as Hfs by congruence.
    split; [congruence|]. split; [done|]. by rewrite C2, Hfs.
  - intros w w' r1 w1 r1' w1' vc Hwf Hwf' Hcwd Hout Hfile Hfile' H1 H2.
    destruct (load_all_spec env self w) as (v1 & E1 & F1 & _).
    rewrite H1 in E1. injection E1 as Hr1 <-.
    destruct (load_all_spec env self w') as (v2 & E2 & F2 & _).
    rewrite H2 in E2. injection E2 as Hr2 <-.
    rewrite Hcwd in Hr2, F2.
    assert (load_outcome env self (cwd w) (fs (sys w'))
            = load_outcome env self (cwd w) (fs (sys w))) as Hsame;
      [|split; congruence].
    unfold load_outcome. subst vc. rewrite versioned_code_path in *.
    rewrite (recreate_forgets _ _ (fs (sys w)) Hwf Hfile).
    rewrite (recreate_forgets _ _ (fs (sys w')) Hwf' Hfile').
    assert (Fs.rmtree (cwd w ++ ["versioned_code"]) (fs (sys w'))
            = Fs.rmtree (cwd w ++ ["versioned_code"]) (fs (sys w))) as ->; [|done].
    apply map_eq. intros p. rewrite !lookup_rmtree. case_decide; [done|]. by apply Hout.
Qed.

(** ** What the tag pattern matches *)
















(** ** Extraction and renaming, path by path *)

Lemma lookup_dirs (ps : list (list string)) (p : list string) :
  Fs.dirs ps !! p = if decide (p ∈ ps) then Some Dir else None.
Proof.
  unfold Fs.dirs. induction ps as [|q ps IH].
  - change (list_to_map ((λ p0, (p0, Dir)) <$> [])) with (∅ : gmap (list string) node).
    rewrite lookup_empty. destruct (decide (p ∈ [])) as [H%elem_of_nil|]; done.
  - rewrite fmap_cons, list_to_map_cons. destruct (decide (q = p)) as [->|Hne].
    + rewrite lookup_insert_eq. by rewrite decide_True by apply list_elem_of_here.
    + rewrite lookup_insert_ne by done. rewrite IH.
      destruct (decide (p ∈ ps)) as [Hin|Hin].
      * by rewrite decide_True by (by apply list_elem_of_further).
      * rewrite decide_False; [done|]. intros [E|H]%elem_of_cons; [by subst | done].
Qed.

(** What a member writes lies on the way to its target: its target itself,
    with the member's node, and directories above it. *)
Lemma writes_lookup (target : list string) (n : node) delta (p : list string) (n' : node) :
  Zip.writes target n = Some delta → delta !! p = Some n' →
  p `prefix_of` target ∧ (p = target ∧ n' = n ∨ p ≠ target ∧ n' = Dir).
Proof.
  unfold Zip.writes.
  destruct target as [|x target].
  { destruct n; [done|]. intros [= <-]. by rewrite lookup_empty. }
  intros Hdelta. assert (delta = <[x :: target := n]> (Fs.dirs (Fs.ancestors (x :: target))))
    as -> by (destruct n; by injection Hdelta).
  rewrite lookup_insert. case_decide as Hp.
  - intros [= <-]. subst. split; [done | by left].
  - rewrite lookup_dirs. case_decide as Hin; [|done]. intros [= <-].
    apply ancestors_spec in Hin as (_ & Hpre & _). split; [done | by right].
Qed.


Lemma writes_ancestor (target : list string) (n : node) delta (a : list string) :
  Zip.writes target n = Some delta → a ∈ Fs.ancestors target → delta !! a = Some Dir.
Proof.
  unfold Zip.writes. destruct target as [|x target].
  { intros _ (_ & Hpre & Hne)%ancestors_spec. apply prefix_nil_inv in Hpre. done. }
  intros Hdelta Ha.
  assert (delta = <[x :: target := n]> (Fs.dirs (Fs.ancestors (x :: target))))
    as -> by (destruct n; by injection Hdelta).
  rewrite lookup_insert_ne.
  - rewrite lookup_dirs. by rewrite decide_True.
  - intros <-. by apply ancestors_spec in Ha as (_ & _ & ?).
Qed.

(** Extraction changes nothing off the ways to its targets. *)
Lemma extract_all_elsewhere (root : list string) (ms : list member) (t : gmap (list string) node) b t' (p : list string) :
  Zip.extract_all root ms t = (b, t') →
  (∀ m, m ∈ ms → ¬ p `prefix_of` (root ++ name m)) →
  t' !! p = t !! p.
Proof.
  revert t. induction ms as [|m ms IH]; intros t; simpl.
  - by intros [= _ <-].
  - intros Hx Hoff. destruct (Zip.extract_member root m t) as [t1|] eqn:Hm.
    + rewrite (IH _ Hx) by (intros m' Hm'; apply Hoff; by right).
      revert Hm. unfold Zip.extract_member.
      destruct (Zip.writes _ _) as [delta|] eqn:Hw; [|done].
      destruct (Fs.agrees t delta); [|done]. intros [= <-].
      rewrite lookup_union. destruct (delta !! p) as [n|] eqn:Hd.
      * destruct (writes_lookup _ _ _ _ _ Hw Hd) as [Hpre _].
        destruct (Hoff m); [by left | done].
      * by rewrite (left_id None _).
    + by injection Hx as _ <-.
Qed.




Lemma rerooted_entries (old new : list string) (t : gmap (list string) node)
    (p : list string) (n : node) :
  (p, n) ∈ prod_map (λ k, new ++ drop (length old) k) id <$> map_to_list (Fs.subtree old t) ↔
  ∃ q, p = new ++ q ∧ t !! (old ++ q) = Some n.
Proof.
  rewrite list_elem_of_fmap. split.
  - intros ([k n'] & [= -> ->] & Hin). apply elem_of_map_to_list in Hin.
    rewrite lookup_subtree in Hin. case_decide as Hpre; [|done].
    destruct Hpre as [q ->]. exists q. by rewrite drop_app_length.
  - intros (q & -> & Hq). exists (old ++ q, n). split.
    + unfold prod_map. simpl. by rewrite drop_app_length.
    + apply elem_of_map_to_list. rewrite lookup_subtree.
      by rewrite decide_True by (by exists q).
Qed.

Lemma rerooted_keys_NoDup (old new : list string) (t : gmap (list string) node) :
  NoDup (prod_map (λ k, new ++ drop (length old) k) id <$> map_to_list (Fs.subtree old t)).*1.
Proof.
  assert (∀ l : list (list string * node),
            (prod_map (λ k, new ++ drop (length old) k) id <$> l).*1
            = (λ k, new ++ drop (length old) k) <$> l.*1) as ->.
  { induction l as [|[k n] l IH]; [done|]. rewrite !fmap_cons. by rewrite IH. }
  apply NoDup_fmap_2_strong; [|apply NoDup_fst_map_to_list].
  intros k1 k2 H1 H2 E.
  assert (∀ k, k ∈ (map_to_list (Fs.subtree old t)).*1 → ∃ q, k = old ++ q) as Hpre.
  { intros k ([k' n] & -> & Hin)%list_elem_of_fmap. apply elem_of_map_to_list in Hin.
    rewrite lookup_subtree in Hin. simpl. case_decide as Hk; [|done]. exact Hk. }
  destruct (Hpre _ H1) as [q1 ->]. destruct (Hpre _ H2) as [q2 ->].
  rewrite !drop_app_length in E. by apply (inj (app new)) in E as ->.
Qed.

Lemma lookup_rerooted (old new : list string) (t : gmap (list string) node) (q : list string) :
  Fs.rerooted old new t !! (new ++ q) = t !! (old ++ q).
Proof.
  apply option_eq. intros n. unfold Fs.rerooted.
  rewrite <- elem_of_list_to_map by apply rerooted_keys_NoDup.
  rewrite rerooted_entries. split.
  - intros (q' & E & H). by apply (inj (app new)) in E as <-.
  - intros H. by exists q.
Qed.


Lemma lookup_rerooted_off (old new : list string) (t : gmap (list string) node)
    (p : list string) :
  ¬ new `prefix_of` p → Fs.rerooted old new t !! p = None.
Proof.
  intros Hoff. apply eq_None_not_Some. intros [n Hn]. unfold Fs.rerooted in Hn.
  rewrite <- elem_of_list_to_map in Hn by apply rerooted_keys_NoDup.
  apply rerooted_entries in Hn as (q & -> & _). apply Hoff. by exists q.
Qed.


(** ** Loading the code of one version *)







#[global] Instance well_formed_dec t : Decision (Fs.well_formed t).
Proof. unfold Fs.well_formed. apply _. Defined.



Lemma sim_fs_well_formed : Fs.well_formed Sim.stale_fs ∧ Fs.well_formed Sim.frozen_fs.
Proof.
  split.
  - apply (bool_decide_unpack (Fs.well_formed Sim.stale_fs)). vm_compute. exact I.
  - apply (bool_decide_unpack (Fs.well_formed Sim.frozen_fs)). vm_compute. exact I.
Qed.

Lemma load_all_is_a_clean_rebuild_witness :
  let w := Sim.world Sim.stale_fs in
  let w' := Sim.world Sim.frozen_fs in
  ∃ r1 w1 r2 w2 r1' w1',
    _load_all_versioned_docs Sim.demo_env (Sim.builder true) w = (r1, w1) ∧
    _load_all_versioned_docs Sim.demo_env (Sim.builder true) w1 = (r2, w2) ∧
    _load_all_versioned_docs Sim.demo_env (Sim.builder true) w' = (r1', w1') ∧
    r1 = Ok [mkVersion ["0"; "15"; "2"]] ∧
    r2 = r1 ∧ fs (sys w2) = fs (sys w1) ∧ r1' = r1 ∧ fs (sys w1') = fs (sys w1).
Proof.
  intros w w'.
  assert ((_load_all_versioned_docs Sim.demo_env (Sim.builder true) w).1
          = Ok [mkVersion ["0"; "15"; "2"]]) as Hr by (vm_compute; reflexivity).
  destruct (_load_all_versioned_docs Sim.demo_env (Sim.builder true) w) as [r1 w1] eqn:H1.
  destruct (_load_all_versioned_docs Sim.demo_env (Sim.builder true) w1) as [r2 w2] eqn:H2.
  destruct (_load_all_versioned_docs Sim.demo_env (Sim.builder true) w') as [r1' w1'] eqn:H1'.
  simpl in Hr. exists r1, w1, r2, w2, r1', w1'.
  destruct (load_all_is_a_clean_rebuild Sim.demo_env (Sim.builder true)) as [Htwice Hforget].
  destruct (Htwice w r1 w1 r2 w2 (proj1 sim_fs_well_formed) H1 H2) as (E1 & E2 & _).
  destruct (Hforget w w' r1 w1 r1' w1' (proj1 sim_fs_well_formed) (proj2 sim_fs_well_formed)
              eq_refl) as (E3 & E4); [| | |exact H1|exact H1'|].
  - intros p Hp. unfold w, w', Sim.world, Sim.stale_fs, Sim.frozen_fs. simpl.
    rewrite !lookup_insert_ne; [reflexivity|..]; intros <-; apply Hp;
      apply (bool_decide_unpack _); vm_compute; exact I.
  - intros c. vm_compute. discriminate.
  - intros c. vm_compute. discriminate.
  - repeat split; assumption.
Defined.

(** ** Restoration by create_version *)

Lemma release_version_file_path dir :
  Fs.resolve dir _release_version_file = dir ++ ["docs"; "components"; "_data.jsx"].
Proof.
  change (Fs.resolve dir _release_version_file)
    with (((dir ++ ["docs"]) ++ ["components"]) ++ ["_data.jsx"]).
  by rewrite <- !app_assoc.
Qed.


(** The load leaves alone every path that is off versioned_code and that the
    archive does not extract to. *)
Lemma load_outcome_elsewhere (env : Env) (self : DocsBuilder) (dir : list string)
    (t : gmap (list string) node) (p : list string) :
  ¬ (dir ++ ["versioned_code"]) `prefix_of` p →
  archive_spares env self p →
  (load_outcome env self dir t).2 !! p = t !! p.
Proof.
  intros Hoff Hspares. unfold load_outcome. rewrite versioned_code_path.
  set (d := dir ++ ["versioned_code"]) in *.
  assert (p ≠ d) as Hpd by (intros ->; by apply Hoff).
  assert (Fs.rmtree d t !! p = t !! p) as Hrm by (rewrite lookup_rmtree; by rewrite decide_False).
  assert ((recreate d t).2 !! p = t !! p) as Hrec.
  { unfold recreate. repeat case_match; simpl; rewrite ?lookup_insert_ne by done; done. }
  destruct (recreate d t) as [[e|] t1]; [done|]. simpl in Hrec. rewrite <- Hrec.
  unfold unpack. destruct (remote env (S3_URL env)) as [| |ms] eqn:Hremote; [done..|].
  destruct (Zip.extract_all _ ms t1) as [b t2] eqn:Hx. simpl.
  apply (extract_all_elsewhere _ _ _ _ _ _ Hx). intros m Hm. by eapply Hspares.
Qed.









#[global] Instance same_checkout_preorder : PreOrder same_checkout.
Proof.
  split; [by intros w|]. intros w1 w2 w3 [A1 B1] [A2 B2]. split; congruence.
Qed.












(* ===================================================================== *)
(** * Part III: further properties of the module                         *)
(* ===================================================================== *)

(** ** The order of commands and writes *)

Lemma did_refl w : did [] w w.
Proof. exists []. by rewrite app_nil_r. Qed.

Lemma did_trans l1 l2 w1 w2 w3 : did l1 w1 w2 → did l2 w2 w3 → did (l1 ++ l2) w1 w3.
Proof.
  intros (e1 & H1 & <-) (e2 & H2 & <-). exists (e1 ++ e2). split.
  - by rewrite H2, H1, app_assoc.
  - unfold script_of. by rewrite omap_app.
Qed.

#[global] Instance did_nothing_preorder : PreOrder (did []).
Proof.
  split; [exact did_refl|]. intros w1 w2 w3 H12 H23. exact (did_trans [] [] _ _ _ H12 H23).
Qed.

#[global] Instance did_nothing_in_place_preorder : PreOrder (did_in_place []).
Proof.
  split.
  - intros w. split; [apply did_refl | done].
  - intros w1 w2 w3 [H12 C12] [H23 C23]. split; [by etrans | congruence].
Qed.

Lemma did_nothing_same_trace w w' : trace w' = trace w → did [] w w'.
Proof. intros H. exists []. by rewrite app_nil_r. Qed.

Lemma did_nothing_io : closed_under_io (did []).
Proof.
  split; [split|..].
  - intros w t. by apply did_nothing_same_trace.
  - intros w b msg. by exists [ELog b msg].
  - intros w h. by exists [EOpen h].
  - intros w h. by exists [EClose h].
Qed.


Lemma did_nothing_load_zip env {A} url (body : ZipFile → M A) :
  (∀ z, keeps (did []) (body z)) → keeps (did []) (_load_zip env url body).
Proof. apply keeps_load_zip; [apply _ | apply did_nothing_io]. Qed.









Lemma keeps_load_files env (R : relation World) `{!PreOrder R} self :
  closed_under_fs R →
  (∀ A url (body : ZipFile → M A),
     (∀ z, keeps R (body z)) → keeps R (_load_zip env url body)) →
  keeps R (_load_files env self).
Proof.
  intros Hfs Hzip. unfold _load_files.
  apply keeps_bind; [done | by apply keeps_load_all_versioned_docs |]. intros versions.
  apply keeps_bind; [done | | intros; by apply keeps_ret].
  apply keeps_mapM; [done|]. intros v. by apply keeps_load_versioned_code.
Qed.





(** ** Frames for whole operations *)

Section operations.
Context (env : Env) (R : relation World) `{!PreOrder R} (Hsteps : closed_under_steps R).
Context (Hzip : ∀ A url (body : ZipFile → M A),
                  (∀ z, keeps R (body z)) → keeps R (_load_zip env url body)).

Lemma step_command c w s : R w (with_sys s (with_event (ERun c) w)).
Proof. etrans; [apply (step_event R Hsteps) | apply (step_sys R Hsteps)]. Qed.

Lemma keeps_logger b msg : keeps R (emit (ELog b msg)).
Proof. apply keeps_emit. intros. apply (step_event R Hsteps). Qed.

Lemma keeps_command c : keeps R (context_run env c).
Proof. apply keeps_context_run. intros. apply step_command. Qed.

Lemma keeps_checked_command c : keeps R (_run env c).
Proof. apply keeps_run; [done|]. intros. apply step_command. Qed.

Lemma keeps_run_and_get_output c : keeps R (_run_and_get_output env c).
Proof.
  unfold _run_and_get_output. apply keeps_bind; [done | apply keeps_checked_command |].
  intros [[|a out]|]; by (apply keeps_raise || apply keeps_ret).
Qed.

Lemma keeps_init dir is_pull_request is_local :
  keeps R (__init__ env dir is_pull_request is_local).
Proof.
  unfold __init__. apply keeps_bind; [done | apply keeps_run_and_get_output |]. intros commit.
  apply keeps_bind; [done | apply keeps_run_and_get_output |]. intros branch.
  by apply keeps_ret.
Qed.

Lemma keeps_write_release_version content : keeps R (_write_release_version content).
Proof.
  intros w r w'. unfold _write_release_version, write_text.
  repeat (rewrite bind_unfold; simpl).
  repeat case_match; intros [= <- <-]; try reflexivity.
  all: etrans; [apply (io_fs R Hsteps) | apply (step_event R Hsteps)].
Qed.

Lemma keeps_api_docs : keeps R (_invoke_api_docs env).
Proof. apply keeps_invoke_api_docs; [done | apply Hsteps |]. intros. apply step_command. Qed.

Lemma keeps_checkout_correct_branch self : keeps R (_checkout_correct_branch env self).
Proof.
  unfold _checkout_correct_branch. destruct (_is_local self).
  all: apply keeps_bind; [done | apply keeps_logger |]; intros _.
  all: apply keeps_bind; [done | apply keeps_checked_command |]; intros _.
  all: by apply keeps_ret.
Qed.

Lemma keeps_latest_tag : (∀ w t, R w (with_memo t w)) → keeps R (_latest_tag env).
Proof.
  intros Hmemo. unfold _latest_tag. apply keeps_get_bind. intros w.
  destruct (latest_tag_memo w) as [t|]; [by intros r w' [= <- <-]|].
  revert w. fold (keeps (A:=string) R).
  apply keeps_bind; [done | apply keeps_checked_command |]. intros [out|]; [|by apply keeps_raise].
  destruct (last _) as [t|]; [|by apply keeps_raise].
  apply keeps_get_bind. intros w r w'. rewrite bind_unfold. simpl.
  intros [= <- <-]. apply Hmemo.
Qed.

Context (Hcwd : ∀ w d, R w (with_cwd d w)).

Lemma keeps_prepare self : keeps R (_prepare env self).
Proof.
  unfold _prepare.
  apply keeps_bind; [done | apply keeps_logger |]. intros _.
  apply keeps_bind; [done | by apply keeps_load_files; [|apply Hsteps|] |]. intros versions.
  apply keeps_bind; [done | apply keeps_logger |]. intros _.
  apply keeps_bind; [done | by apply keeps_os_chdir |]. intros _.
  apply keeps_bind; [done | apply keeps_call_prepare_prior_versions, (step_sys R Hsteps); done |].
  intros _.
  apply keeps_bind; [done | by apply keeps_os_chdir |]. intros _.
  apply keeps_bind; [done | apply keeps_logger |]. intros _.
  apply keeps_bind; [done | apply keeps_api_docs |]. intros _.
  apply keeps_checkout_correct_branch.
Qed.

Lemma keeps_build_docs self : keeps R (build_docs env self).
Proof.
  unfold build_docs.
  apply keeps_bind; [done | apply keeps_logger |]. intros _.
  apply keeps_bind; [done | by apply keeps_load_all_versioned_docs; [|apply Hsteps|] |]. intros _.
  apply keeps_bind; [done | apply keeps_api_docs |]. intros _.
  apply keeps_bind; [done | apply keeps_logger |]. intros _.
  apply keeps_bind; [done | apply keeps_command |]. intros _.
  by apply keeps_ret.
Qed.

Lemma keeps_build_docs_locally self : keeps R (build_docs_locally env self).
Proof.
  unfold build_docs_locally.
  apply keeps_bind; [done | apply keeps_prepare |]. intros _.
  apply keeps_bind; [done | apply keeps_logger |]. intros _.
  apply keeps_bind; [done | apply keeps_command |]. intros _.
  by apply keeps_ret.
Qed.

Lemma keeps_create_version self version : keeps R (create_version env self version).
Proof.
  unfold create_version.
  apply keeps_bind; [done | apply keeps_logger |]. intros _.
  apply keeps_bind; [done | by apply keeps_load_all_versioned_docs; [|apply Hsteps|] |].
  intros versions.
  apply keeps_bind; [done | apply keeps_unless |]. intros _.
  apply keeps_bind; [done | apply keeps_command |]. intros _.
  apply keeps_bind; [done | by apply keeps_read_prior_release_version_file |]. intros old.
  apply keeps_bind; [done | apply keeps_write_release_version |]. intros _.
  apply keeps_bind; [done | apply keeps_command |]. intros _.
  apply keeps_bind; [done | by apply keeps_load_versioned_code; [|apply Hsteps|] |]. intros _.
  apply keeps_bind; [done | by apply keeps_os_chdir |]. intros _.
  apply keeps_bind; [done | apply keeps_call_prepare_prior_version, (step_sys R Hsteps); done |].
  intros _.
  apply keeps_bind; [done | by apply keeps_os_chdir |]. intros _.
  apply keeps_bind; [done | apply keeps_command |]. intros _.
  apply keeps_bind; [done | apply keeps_logger |]. intros _.
  apply keeps_bind; [done | apply keeps_write_release_version |]. intros _.
  apply keeps_bind; [done | apply keeps_command |]. intros _.
  apply keeps_bind; [done | apply keeps_logger |]. intros _.
  apply keeps_bind; [done | apply keeps_api_docs |]. intros _.
  apply keeps_bind; [done | apply keeps_command |]. intros _.
  apply keeps_logger.
Qed.

End operations.

Lemma same_handles_steps : closed_under_steps same_handles.
Proof. split; [apply same_handles_fs|..]; intros; intros _; done. Qed.

Lemma same_handles_in_order w w' :
  handles_in_order w → same_handles w w' →
  open_handles w' = open_handles w ∧ handles_in_order w'.
Proof.
  intros Hw H. destruct (H Hw) as [E L]. split; [done|].
  intros h Hh. rewrite E in Hh. specialize (Hw h Hh). lia.
Qed.

(** X3.  No operation of the builder leaks an archive: however [build_docs],
    [build_docs_locally] or [create_version] ends, also by an error raised
    half-way through an extraction or by a collaborator, the archives open
    afterwards are those that were open before, and the handle counter is
    still above all of them, so that the next operation starts from a state
    of the same kind. *)
Theorem operations_close_their_archives (env : Env) (self : DocsBuilder) (version : Version)
    (w : World) :
  handles_in_order w →
  (∀ r w', build_docs env self w = (r, w') →
     open_handles w' = open_handles w ∧ handles_in_order w') ∧
  (∀ r w', build_docs_locally env self w = (r, w') →
     open_handles w' = open_handles w ∧ handles_in_order w') ∧
  (∀ r w', create_version env self version w = (r, w') →
     open_handles w' = open_handles w ∧ handles_in_order w').
Proof.
  intros Hw.
  pose proof same_handles_steps as Hsteps.
  pose proof (λ A, same_handles_load_zip env (A:=A)) as Hzip.
  assert (∀ w d, same_handles w (with_cwd d w)) as Hcwd by (intros; intros _; done).
  split; [|split]; intros r w' H; apply same_handles_in_order; try done.
  - by apply (keeps_build_docs env same_handles Hsteps Hzip) in H.
  - by apply (keeps_build_docs_locally env same_handles Hsteps Hzip Hcwd) in H.
  - by apply (keeps_create_version env same_handles Hsteps Hzip Hcwd) in H.
Qed.

Lemma operations_close_their_archives_witness :
  let version := mkVersion ["0"; "15"; "2"] in
  let w := Sim.world Sim.base_fs in
  let w' := (create_version Sim.demo_env (Sim.builder true) version w).2 in
  handles_in_order w ∧ open_handles w' = open_handles w ∧ handles_in_order w'.
Proof.
  intros version w w'.
  pose proof (sim_world_handles_in_order Sim.base_fs) as Hw. split; [exact Hw|].
  destruct (operations_close_their_archives Sim.demo_env (Sim.builder true) version w Hw)
    as (_ & _ & H).
  apply (H (create_version Sim.demo_env (Sim.builder true) version w).1).
  apply surjective_pairing.
Defined.

(** ** Trimmed output *)

Lemma append_cons (a : ascii) (s t : string) : String a s +:+ t = String a (s +:+ t).
Proof. reflexivity. Qed.

Lemma append_nil_r (s : string) : s +:+ "" = s.
Proof. induction s as [|a s IH]; [done|]. by rewrite append_cons, IH. Qed.

Lemma append_assoc (s1 s2 s3 : string) : (s1 +:+ s2) +:+ s3 = s1 +:+ (s2 +:+ s3).
Proof. induction s1 as [|a s1 IH]; [done|]. by rewrite !append_cons, IH. Qed.

Lemma rev_app_append (s1 s2 : string) : String.rev_app s1 s2 = String.rev s1 +:+ s2.
Proof.
  revert s2. induction s1 as [|a s1 IH]; intros s2; [done|].
  unfold String.rev. simpl. rewrite (IH (String a s2)), (IH (String a "")).
  by rewrite append_assoc.
Qed.

Lemma rev_cons (a : ascii) (s : string) : String.rev (String a s) = String.rev s +:+ String a "".
Proof. unfold String.rev at 1. simpl. apply rev_app_append. Qed.

Lemma rev_append (s1 s2 : string) : String.rev (s1 +:+ s2) = String.rev s2 +:+ String.rev s1.
Proof.
  induction s1 as [|a s1 IH].
  - change ("" +:+ s2) with s2. change (String.rev "") with "". by rewrite append_nil_r.
  - by rewrite append_cons, !rev_cons, IH, append_assoc.
Qed.

Lemma rev_rev (s : string) : String.rev (String.rev s) = s.
Proof.
  induction s as [|a s IH]; [done|].
  by rewrite rev_cons, rev_append, IH.
Qed.

Lemma lstrip_starts_clean (s : string) : starts_clean (PyStr.lstrip s).
Proof.
  induction s as [|a s IH]; simpl; [done|].
  destruct (PyStr.isspace a) eqn:Ha; [done | exact Ha].
Qed.

Lemma lstrip_clean (s : string) : starts_clean s → PyStr.lstrip s = s.
Proof. destruct s as [|a s]; simpl; [done|]. by intros ->. Qed.

Lemma lstrip_suffix (s : string) : ∃ pre, s = pre +:+ PyStr.lstrip s.
Proof.
  induction s as [|a s [pre IH]]; simpl; [by exists ""|].
  destruct (PyStr.isspace a).
  - exists (String a pre). by rewrite append_cons, <- IH.
  - by exists "".
Qed.

Lemma starts_clean_prefix (s1 s2 : string) : starts_clean (s1 +:+ s2) → starts_clean s1.
Proof. destruct s1 as [|a s1]; [done|]. intros H. exact H. Qed.

Lemma strip_trimmed (s : string) : trimmed (PyStr.strip s).
Proof.
  unfold PyStr.strip, trimmed. split.
  - destruct (lstrip_suffix (String.rev (PyStr.lstrip s))) as [pre Hpre].
    apply (f_equal String.rev) in Hpre. rewrite rev_rev, rev_append in Hpre.
    apply (starts_clean_prefix _ (String.rev pre)). rewrite <- Hpre.
    apply lstrip_starts_clean.
  - rewrite rev_rev. apply lstrip_starts_clean.
Qed.

Lemma trimmed_strip (s : string) : trimmed s → PyStr.strip s = s.
Proof.
  intros [H1 H2]. unfold PyStr.strip. by rewrite (lstrip_clean s H1), (lstrip_clean _ H2), rev_rev.
Qed.

Lemma lstrip_blank (s : string) : all_chars PyStr.isspace s = true → PyStr.lstrip s = "".
Proof.
  induction s as [|a s IH]; simpl; [done|].
  intros [Ha Hs]%andb_true_iff. rewrite Ha. auto.
Qed.

Lemma strip_blank (s : string) : all_chars PyStr.isspace s = true → PyStr.strip s = "".
Proof. intros H. unfold PyStr.strip. by rewrite (lstrip_blank s H). Qed.

Lemma run_and_get_output_Ok env c w out w' :
  _run_and_get_output env c w = (Ok out, w') →
  out ≠ "" ∧ trimmed out ∧
  ∃ r s, run env c (cwd w) (sys w) = (Returned (Some r), s) ∧
         truthy r = true ∧ ok r = true ∧ out = PyStr.strip (stdout r) ∧
         w' = with_sys s (with_event (ERun c) w).
Proof.
  unfold _run_and_get_output, _run, context_run. rewrite !bind_unfold.
  destruct (run env c (cwd w) (sys w)) as [[[r|]|what] s]; [| |done].
  2: { simpl. done. }
  destruct (truthy r) eqn:Ht; simpl; [|done].
  destruct (ok r) eqn:Hok; simpl; [|done].
  destruct (PyStr.strip (stdout r)) as [|a rest] eqn:Hs; [done|].
  intros [= <- <-]. split; [done|]. rewrite <- Hs.
  split; [apply strip_trimmed|]. by exists r, s.
Qed.

(** X4.  What [_run_and_get_output] hands back is never empty and never has
    white space at either end: it is the trimmed output of a command whose
    result passed both tests of [_run], and trimming it again changes
    nothing.  A command that printed nothing but white space, like one that
    gave no result, makes the assertion fail. *)
Theorem run_and_get_output_is_trimmed (env : Env) (c : string) (w : World) :
  (∀ out w', _run_and_get_output env c w = (Ok out, w') →
     out ≠ "" ∧ trimmed out ∧ PyStr.strip out = out ∧
     ∃ r s, run env c (cwd w) (sys w) = (Returned (Some r), s) ∧
            truthy r = true ∧ ok r = true ∧ out = PyStr.strip (stdout r) ∧
            w' = with_sys s (with_event (ERun c) w)) ∧
  (∀ r s, run env c (cwd w) (sys w) = (Returned (Some r), s) →
     truthy r = true → ok r = true → all_chars PyStr.isspace (stdout r) = true →
     _run_and_get_output env c w
       = (Raised AssertionError, with_sys s (with_event (ERun c) w))) ∧
  (∀ s, run env c (cwd w) (sys w) = (Returned None, s) →
     _run_and_get_output env c w
       = (Raised AssertionError, with_sys s (with_event (ERun c) w))).
Proof.
  split; [|split].
  - intros out w' H. apply run_and_get_output_Ok in H as (Hne & Htrim & Hrun).
    split; [done|]. split; [done|]. split; [by apply trimmed_strip | done].
  - intros r s Hrun Ht Hok Hblank. unfold _run_and_get_output, _run, context_run.
    rewrite !bind_unfold, Hrun. simpl.
    rewrite Ht, Hok. simpl. by rewrite (strip_blank _ Hblank).
  - intros s Hrun. unfold _run_and_get_output, _run, context_run.
    rewrite !bind_unfold, Hrun. done.
Qed.

Lemma run_and_get_output_is_trimmed_witness :
  let w := Sim.world Sim.base_fs in
  (∃ w', _run_and_get_output (Sim.env "" []) "git rev-parse HEAD" w = (Ok "c0ffee", w') ∧
         trimmed "c0ffee") ∧
  (_run_and_get_output (Sim.env (" " +:+ newline) []) "git tag" w).1 = Raised AssertionError.
Proof.
  intros w. split.
  - assert ((_run_and_get_output (Sim.env "" []) "git rev-parse HEAD" w).1 = Ok "c0ffee")
      as Hr by (vm_compute; reflexivity).
    destruct (_run_and_get_output (Sim.env "" []) "git rev-parse HEAD" w) as [r w'] eqn:Hrun.
    simpl in Hr. subst r. exists w'. split; [reflexivity|].
    destruct (run_and_get_output_is_trimmed (Sim.env "" []) "git rev-parse HEAD" w) as [H _].
    exact (proj1 (proj2 (H _ _ Hrun))).
  - destruct (run_and_get_output_is_trimmed (Sim.env (" " +:+ newline) []) "git tag" w)
      as (_ & H & _).
    rewrite (H (mkResult true true (" " +:+ newline)) (sys w));
      [reflexivity | vm_compute; reflexivity | reflexivity..].
Defined.

(** ** The constructor *)

(** X5.  A builder that [__init__] returns holds the directory and the two flags
    it was given, and as commit and branch the trimmed output of the two
    [git rev-parse] commands, run in this order and nothing else; neither is
    empty. *)
Theorem init_records_commit_and_branch (env : Env) (dir : list string)
    (is_pull_request is_local : bool) (w : World) (self : DocsBuilder) (w' : World) :
  __init__ env dir is_pull_request is_local w = (Ok self, w') →
  _current_directory self = dir ∧ _is_pull_request self = is_pull_request ∧
  _is_local self = is_local ∧
  _current_commit self ≠ "" ∧ trimmed (_current_commit self) ∧
  _current_branch self ≠ "" ∧ trimmed (_current_branch self) ∧
  did [ERun "git rev-parse HEAD"; ERun "git rev-parse --abbrev-ref HEAD"] w w' ∧
  ∃ r1 s1 r2 s2,
    run env "git rev-parse HEAD" (cwd w) (sys w) = (Returned (Some r1), s1) ∧
    run env "git rev-parse --abbrev-ref HEAD" (cwd w) s1 = (Returned (Some r2), s2) ∧
    _current_commit self = PyStr.strip (stdout r1) ∧
    _current_branch self = PyStr.strip (stdout r2) ∧
    sys w' = s2.
Proof.
  intros H. unfold __init__ in H.
  apply bind_Ok_inv in H as (commit & w1 & H1 & H).
  apply bind_Ok_inv in H as (branch & w2 & H2 & H).
  injection H as <- <-. simpl.
  apply run_and_get_output_Ok in H1 as (Hne1 & Ht1 & r1 & s1 & Hrun1 & _ & _ & -> & ->).
  apply run_and_get_output_Ok in H2 as (Hne2 & Ht2 & r2 & s2 & Hrun2 & _ & _ & -> & ->).
  simpl in Hrun2. repeat (split; [done|]).
  split; [|by exists r1, s1, r2, s2].
  eexists [_; _]. simpl. by rewrite <- app_assoc.
Qed.

Lemma init_records_commit_and_branch_witness :
  let w := Sim.world Sim.base_fs in
  ∃ self w', __init__ (Sim.env "" []) Sim.docusaurus false true w = (Ok self, w') ∧
             _current_commit self = "c0ffee" ∧ _current_branch self = "main" ∧
             did [ERun "git rev-parse HEAD"; ERun "git rev-parse --abbrev-ref HEAD"] w w'.
Proof.
  intros w.
  assert ((__init__ (Sim.env "" []) Sim.docusaurus false true w).1 = Ok (Sim.builder true))
    as Hr by (vm_compute; reflexivity).
  destruct (__init__ (Sim.env "" []) Sim.docusaurus false true w) as [r w'] eqn:Hrun.
  simpl in Hr. subst r. exists (Sim.builder true), w'.
  split; [reflexivity|]. split; [reflexivity|]. split; [reflexivity|].
  exact (proj1 (proj2 (proj2 (proj2 (proj2 (proj2 (proj2 (proj2
           (init_records_commit_and_branch _ _ _ _ _ _ _ Hrun))))))))).
Defined.

(** ** The latest tag *)

#[global] Instance same_memo_preorder : PreOrder same_memo.
Proof. split; [done|]. intros w1 w2 w3 H12 H23. unfold same_memo in *. congruence. Qed.

Lemma same_memo_steps : closed_under_steps same_memo.
Proof. split; [split|..]; done. Qed.

Lemma same_memo_load_zip env {A} url (body : ZipFile → M A) :
  (∀ z, keeps same_memo (body z)) → keeps same_memo (_load_zip env url body).
Proof. apply keeps_load_zip; [apply _|]. split; [split|..]; done. Qed.

Lemma latest_tag_cached env w t : latest_tag_memo w = Some t → _latest_tag env w = (Ok t, w).
Proof. intros H. unfold _latest_tag. rewrite bind_unfold. simpl. by rewrite H. Qed.

Lemma latest_tag_Ok env w t w1 : _latest_tag env w = (Ok t, w1) → latest_tag_memo w1 = Some t.
Proof.
  unfold _latest_tag. rewrite bind_unfold. simpl.
  destruct (latest_tag_memo w) as [t0|] eqn:Hmemo; [by intros [= <- <-]|].
  intros H. apply bind_Ok_inv in H as ([out|] & w2 & _ & H); [|done].
  destruct (last _) as [t1|]; [|done].
  repeat (rewrite bind_unfold in H; simpl in H). by injection H as <- <-.
Qed.

(** X6.  [_latest_tag] is computed at most once.  An access that returns a tag
    leaves it memoised: the next access, right away or after any of the
    three operations however they end, returns the same tag and touches
    nothing, running no [git tag] again (so a tag created in between is not
    seen).  An access that fails memoises nothing. *)
Theorem latest_tag_is_computed_once (env : Env) (w : World) :
  (∀ t w1, _latest_tag env w = (Ok t, w1) →
     _latest_tag env w1 = (Ok t, w1) ∧
     ∀ self version r w2,
       build_docs env self w1 = (r, w2) ∨ build_docs_locally env self w1 = (r, w2) ∨
       create_version env self version w1 = (r, w2) →
       _latest_tag env w2 = (Ok t, w2)) ∧
  (∀ e w1, _latest_tag env w = (Raised e, w1) → latest_tag_memo w1 = None).
Proof.
  split.
  - intros t w1 H%latest_tag_Ok. split; [by apply latest_tag_cached|].
    intros self version r w2 Hop. apply latest_tag_cached. rewrite <- H.
    pose proof same_memo_steps as Hsteps.
    pose proof (λ A, same_memo_load_zip env (A:=A)) as Hzip.
    destruct Hop as [Hop|[Hop|Hop]].
    + by apply (keeps_build_docs env same_memo Hsteps Hzip) in Hop.
    + by apply (keeps_build_docs_locally env same_memo Hsteps Hzip) in Hop.
    + by apply (keeps_create_version env same_memo Hsteps Hzip) in Hop.
  - intros e w1. unfold _latest_tag. rewrite bind_unfold. simpl.
    destruct (latest_tag_memo w) as [t0|] eqn:Hmemo; [done|].
    intros H. apply bind_inv in H as [(o & w2 & H1 & H)|(e' & H1 & _)];
      apply (keeps_checked_command env same_memo same_memo_steps) in H1;
      unfold same_memo in H1; [|congruence].
    destruct o as [out|]; [|injection H as _ <-; congruence].
    destruct (last _) as [t|]; [|injection H as _ <-; congruence].
    repeat (rewrite bind_unfold in H; simpl in H). done.
Qed.

Lemma latest_tag_is_computed_once_witness :
  let env := Sim.env "v1 0.9.0 0.15.2" [] in
  let w := Sim.world Sim.base_fs in
  ∃ w1, _latest_tag env w = (Ok "0.9.0", w1) ∧ _latest_tag env w1 = (Ok "0.9.0", w1).
Proof.
  intros env w.
  assert ((_latest_tag env w).1 = Ok "0.9.0") as Hr by (vm_compute; reflexivity).
  destruct (_latest_tag env w) as [r w1] eqn:Hrun. simpl in Hr. subst r.
  exists w1. split; [reflexivity|].
  destruct (latest_tag_is_computed_once env w) as [H _].
  exact (proj1 (H _ _ Hrun)).
Defined.

(** X7.  When [git tag] lists no tag that matches the pattern, [_latest_tag]
    ends with an IndexError, the index of an empty list, and when the
    command gave no result, with an AssertionError; in both cases right
    after the command. *)
Theorem latest_tag_without_tags (env : Env) (w w1 : World) :
  latest_tag_memo w = None →
  (∀ out, _run env "git tag" w = (Ok (Some out), w1) → matching_tags out = [] →
     _latest_tag env w = (Raised IndexError, w1)) ∧
  (_run env "git tag" w = (Ok None, w1) →
     _latest_tag env w = (Raised AssertionError, w1)).
Proof.
  intros Hmemo. split.
  - intros out Hrun Hnone. unfold _latest_tag. rewrite bind_unfold. simpl. rewrite Hmemo.
    rewrite (bind_Ok_eq _ _ _ _ _ Hrun). fold (matching_tags out). by rewrite Hnone.
  - intros Hrun. unfold _latest_tag. rewrite bind_unfold. simpl. rewrite Hmemo.
    by rewrite (bind_Ok_eq _ _ _ _ _ Hrun).
Qed.

Lemma latest_tag_without_tags_witness :
  let env := Sim.env "v1 nightly" [] in
  let w := Sim.world Sim.base_fs in
  latest_tag_memo w = None ∧ matching_tags "v1 nightly" = [] ∧
  (_latest_tag env w).1 = Raised IndexError.
Proof.
  intros env w. split; [reflexivity|]. split; [vm_compute; reflexivity|].
  assert ((_run env "git tag" w).1 = Ok (Some "v1 nightly")) as Hr by (vm_compute; reflexivity).
  destruct (_run env "git tag" w) as [r w1] eqn:Hrun. simpl in Hr. subst r.
  destruct (latest_tag_without_tags env w w1 eq_refl) as [H _].
  rewrite (H "v1 nightly" Hrun); [reflexivity | vm_compute; reflexivity].
Defined.

(** ** What the pattern accepts *)

Lemma matches_prefix (r : Re.regex) (s : string) :
  Re.matches r s = true ↔ ∃ v rest, s = v +:+ rest ∧ Re.fullmatch r v = true.
Proof.
  split.
  - revert r. induction s as [|c s IH]; intros r; simpl.
    + rewrite orb_false_r. intros Hn. by exists "", "".
    + intros [Hn|Hd]%orb_true_iff.
      * by exists "", (String c s).
      * destruct (IH _ Hd) as (v & rest & -> & Hv). by exists (String c v), rest.
  - intros (v & rest & -> & Hv). revert r Hv. induction v as [|c v IH]; intros r Hv.
    + simpl in Hv. change ("" +:+ rest) with rest. destruct rest; simpl; by rewrite Hv.
    + simpl in Hv. rewrite append_cons.
      change (Re.nullable r || Re.matches (Re.deriv c r) (v +:+ rest) = true).
      rewrite (IH _ Hv). apply orb_true_r.
Qed.

(** X8.  [_tag_regex.match] anchors the pattern at the start of the tag only: a
    tag is accepted exactly when it begins with a dotted number, whatever
    follows.  So the tags [_latest_tag] chooses among are the words of the
    output that begin with one, such as 0.15.2rc1. *)
Theorem tag_regex_accepts_any_suffix (out t : string) :
  (Re.matches _tag_regex t = true ↔
   ∃ v rest, t = v +:+ rest ∧ Re.fullmatch _tag_regex v = true) ∧
  (t ∈ matching_tags out ↔
   t ∈ PyStr.split out ∧ ∃ v rest, t = v +:+ rest ∧ Re.fullmatch _tag_regex v = true).
Proof.
  split; [apply matches_prefix|].
  unfold matching_tags. rewrite list_elem_of_filter, matches_prefix. tauto.
Qed.

Lemma tag_regex_accepts_any_suffix_witness :
  Re.matches _tag_regex "0.15.2rc1" = true ∧ "0.15.2rc1" ∈ matching_tags "v1 0.15.2rc1".
Proof.
  destruct (tag_regex_accepts_any_suffix "v1 0.15.2rc1" "0.15.2rc1") as [H1 H2].
  assert (∃ v rest, "0.15.2rc1" = v +:+ rest ∧ Re.fullmatch _tag_regex v = true) as Hpre
    by (by exists "0.15.2", "rc1").
  split; [by apply H1|]. apply H2. split; [|done].
  vm_compute. set_solver.
Defined.

(** ** Results nobody looks at *)

Lemma same_behaviour_refl {A} (m : M A) : same_behaviour m m.
Proof. by intros w. Qed.

Lemma same_behaviour_bind {A B} (m1 m2 : M A) (k1 k2 : A → M B) :
  same_behaviour m1 m2 → (∀ a, same_behaviour (k1 a) (k2 a)) →
  same_behaviour (m1 ≫= k1) (m2 ≫= k2).
Proof.
  intros Hm Hk w. rewrite !bind_unfold, (Hm w).
  destruct (m2 w) as [[a|e] w1]; [apply Hk | done].
Qed.

Lemma same_behaviour_command env1 env2 c {B} (k1 k2 : M B) :
  (∀ dir s, alike (run env1 c dir s) (run env2 c dir s)) →
  same_behaviour k1 k2 →
  same_behaviour (context_run env1 c ;; k1) (context_run env2 c ;; k2).
Proof.
  intros Hc Hk w. rewrite !bind_unfold. unfold context_run.
  destruct (Hc (cwd w) (sys w)) as [Hs Ho].
  destruct (run env1 c (cwd w) (sys w)) as [[o1|what1] s1],
           (run env2 c (cwd w) (sys w)) as [[o2|what2] s2]; simpl in *; subst;
    first [done | apply Hk].
Qed.

Lemma same_behaviour_checked env1 env2 c :
  (∀ dir s, run env1 c dir s = run env2 c dir s) →
  same_behaviour (_run env1 c) (_run env2 c).
Proof. intros Hc w. unfold _run, context_run. by rewrite !bind_unfold, Hc. Qed.

Section unchecked.
Context (env : Env) (run' : string → list string → Sys → run_outcome * Sys)
        (self : DocsBuilder).
Context (Hchecked : ∀ c, c ∈ checked_commands self → ∀ dir s, run' c dir s = run env c dir s).

Lemma same_api_docs :
  same_behaviour (_invoke_api_docs (with_runner run' env)) (_invoke_api_docs env).
Proof.
  unfold _invoke_api_docs.
  apply same_behaviour_bind; [apply same_behaviour_refl|]. intros _.
  apply same_behaviour_bind; [|intros; apply same_behaviour_refl].
  apply same_behaviour_checked. apply Hchecked. set_solver.
Qed.

Lemma same_checkout_correct_branch :
  same_behaviour (_checkout_correct_branch (with_runner run' env) self)
                 (_checkout_correct_branch env self).
Proof.
  assert (∀ dir s, run' ("git checkout " +:+ recorded_checkout self) dir s
                   = run env ("git checkout " +:+ recorded_checkout self) dir s) as Hco
    by (apply Hchecked; set_solver).
  unfold _checkout_correct_branch, recorded_checkout in *.
  destruct (_is_local self).
  all: apply same_behaviour_bind; [apply same_behaviour_refl|]; intros _.
  all: apply same_behaviour_bind; [|intros; apply same_behaviour_refl].
  all: by apply same_behaviour_checked.
Qed.

Lemma same_prepare :
  same_behaviour (_prepare (with_runner run' env) self) (_prepare env self).
Proof.
  unfold _prepare.
  do 7 (apply same_behaviour_bind; [by intros w|]; intros ?).
  apply same_behaviour_bind; [apply same_api_docs|]. intros _.
  apply same_checkout_correct_branch.
Qed.

End unchecked.

(** X9.  The builder never looks at what the commands it runs with a bare
    [Context.run] hand back.  Replace the runner by one that leaves the same
    system behind and raises when the other does, but hands back other
    result objects (failed ones, say) for the commands that are not checked:
    every operation does exactly the same.  So a [git checkout], a [yarn] or
    a [zip] that reports failure in its result does not stop
    [create_version]. *)
Theorem unchecked_results_are_ignored (env : Env)
    (run' : string → list string → Sys → run_outcome * Sys)
    (self : DocsBuilder) (version : Version) :
  (∀ c dir s, alike (run' c dir s) (run env c dir s)) →
  (∀ c, c ∈ checked_commands self → ∀ dir s, run' c dir s = run env c dir s) →
  same_behaviour (build_docs (with_runner run' env) self) (build_docs env self) ∧
  same_behaviour (build_docs_locally (with_runner run' env) self) (build_docs_locally env self) ∧
  same_behaviour (create_version (with_runner run' env) self version)
                 (create_version env self version).
Proof.
  intros Halike Hchecked.
  pose proof (same_api_docs env run' self Hchecked) as Hapi.
  split; [|split].
  - unfold build_docs.
    do 2 (apply same_behaviour_bind; [by intros w|]; intros ?).
    apply same_behaviour_bind; [exact Hapi|]. intros _.
    apply same_behaviour_bind; [by intros w|]. intros _.
    apply same_behaviour_command; [apply Halike | apply same_behaviour_refl].
  - unfold build_docs_locally.
    apply same_behaviour_bind; [by apply same_prepare|]. intros _.
    apply same_behaviour_bind; [by intros w|]. intros _.
    apply same_behaviour_command; [apply Halike | apply same_behaviour_refl].
  - unfold create_version.
    do 3 (apply same_behaviour_bind; [by intros w|]; intros ?).
    apply same_behaviour_command; [apply Halike|].
    do 2 (apply same_behaviour_bind; [by intros w|]; intros ?).
    apply same_behaviour_command; [apply Halike|].
    do 4 (apply same_behaviour_bind; [by intros w|]; intros ?).
    apply same_behaviour_command; [apply Halike|].
    do 2 (apply same_behaviour_bind; [by intros w|]; intros ?).
    apply same_behaviour_command; [apply Halike|].
    apply same_behaviour_bind; [by intros w|]. intros _.
    apply same_behaviour_bind; [exact Hapi|]. intros _.
    apply same_behaviour_command; [apply Halike | apply same_behaviour_refl].
Qed.

Lemma alike_refl (x : run_outcome * Sys) : alike x x.
Proof. split; [done|]. by destruct x.1. Qed.

Lemma unchecked_results_are_ignored_witness :
  let version := mkVersion ["0"; "16"; "0"] in
  let w := Sim.world Sim.base_fs in
  let failing := Sim.shell ["yarn build"] "" in
  failing "yarn build" (cwd w) (sys w) = (Returned (Some (mkResult true false "")), sys w) ∧
  create_version (with_runner failing Sim.demo_env) (Sim.builder true) version w
    = create_version Sim.demo_env (Sim.builder true) version w.
Proof.
  intros version w failing. split; [reflexivity|].
  assert (∀ c, c ≠ "yarn build" → ∀ dir s, failing c dir s = run Sim.demo_env c dir s) as Hother.
  { intros c Hc dir s. change (run Sim.demo_env) with (Sim.shell [] "").
    unfold failing, Sim.shell.
    rewrite (decide_False (P:=c ∈ ["yarn build"])) by set_solver.
    by rewrite (decide_False (P:=c ∈ [])) by set_solver. }
  apply (unchecked_results_are_ignored Sim.demo_env failing (Sim.builder true) version).
  - intros c dir s. destruct (decide (c = "yarn build")) as [->|Hc].
    + split; reflexivity.
    + rewrite (Hother c Hc). apply alike_refl.
  - intros c Hc. apply Hother. intros ->.
    apply elem_of_cons in Hc as [[=]|Hc]. apply elem_of_cons in Hc as [[=]|Hc].
    by apply elem_of_nil in Hc.
Defined.

(** ** What loading the versioned docs leaves alone *)

Lemma did_nothing_steps_apart w w' :
  did [] w w' → ∃ evs, trace w' = trace w ++ evs ∧ Forall (λ e, ¬ is_run e ∧ ¬ is_write e) evs.
Proof.
  intros (evs & Htr & Hs). exists evs. split; [done|].
  clear Htr. induction evs as [|e evs IH]; [done|].
  unfold script_of in Hs. simpl in Hs.
  destruct e; simpl in Hs; try done.
  all: constructor; [|by apply IH].
  all: split; [by intros [? [=]] | by intros (? & ? & [=])].
Qed.

(** X10.  However [_load_all_versioned_docs] ends, it has run no command and
    written no text file, the checkout and the working directory are as
    they were, and so is every path that is neither at or below
    versioned_code nor on the way to something the versions archive
    extracts. *)
Theorem load_all_touches_only_its_targets (env : Env) (self : DocsBuilder)
    (w : World) (r : res (list Version)) (w' : World) :
  _load_all_versioned_docs env self w = (r, w') →
  head (sys w') = head (sys w) ∧ prev_head (sys w') = prev_head (sys w) ∧
  cwd w' = cwd w ∧ latest_tag_memo w' = latest_tag_memo w ∧
  (∃ evs, trace w' = trace w ++ evs ∧ Forall (λ e, ¬ is_run e ∧ ¬ is_write e) evs) ∧
  (∀ p, ¬ (cwd w ++ ["versioned_code"]) `prefix_of` p → archive_spares env self p →
        fs (sys w') !! p = fs (sys w) !! p).
Proof.
  intros H.
  destruct (load_all_spec env self w) as (w1 & E & F & Hh & Hp & Hc).
  rewrite H in E. injection E as _ <-.
  repeat (split; [done|]). split; [|split].
  - by apply (keeps_load_all_versioned_docs env same_memo same_memo_steps
                (λ A, same_memo_load_zip env)) in H.
  - apply did_nothing_steps_apart.
    by apply (keeps_load_all_versioned_docs env (did []) did_nothing_io
                (λ A, did_nothing_load_zip env)) in H.
  - intros p Hoff Hspares. rewrite F. by apply load_outcome_elsewhere.
Qed.

Lemma load_all_touches_only_its_targets_witness :
  let w := Sim.world Sim.stale_fs in
  let w' := (_load_all_versioned_docs Sim.demo_env (Sim.builder true) w).2 in
  let p := Sim.docusaurus ++ ["docs"; "components"; "_data.jsx"] in
  cwd w' = cwd w ∧ fs (sys w') !! p = fs (sys w) !! p.
Proof.
  intros w w' p.
  destruct (load_all_touches_only_its_targets Sim.demo_env (Sim.builder true) w
              (_load_all_versioned_docs Sim.demo_env (Sim.builder true) w).1 w')
    as (_ & _ & Hc & _ & _ & Hp); [apply surjective_pairing|].
  split; [exact Hc|]. apply Hp.
  - intros Hpre. apply (bool_decide_pack _) in Hpre. vm_compute in Hpre. exact Hpre.
  - intros ms m Hms Hm.
    assert (remote Sim.demo_env (S3_URL Sim.demo_env)
            = Zipped [mkMember ["versions.json"] (File (Sim.versions_json ["0.15.2"]));
                      mkMember ["versioned_code"; "version-0.15.2"; "a.py"] (File "x")])
      as Hserved by (vm_compute; reflexivity).
    rewrite Hserved in Hms. injection Hms as <-.
    apply elem_of_cons in Hm as [->|Hm]; [|apply list_elem_of_singleton in Hm as ->];
      intros Hpre; apply (bool_decide_pack _) in Hpre; vm_compute in Hpre; exact Hpre.
Defined.

(** ** The working directory *)

#[global] Instance in_place_preorder : PreOrder in_place.
Proof. split; [done|]. intros w1 w2 w3 H12 H23. unfold in_place in *. congruence. Qed.

Lemma in_place_steps : closed_under_steps in_place.
Proof. split; [split|..]; done. Qed.

Lemma in_place_load_zip env {A} url (body : ZipFile → M A) :
  (∀ z, keeps in_place (body z)) → keeps in_place (_load_zip env url body).
Proof. apply keeps_load_zip; [apply _|]. split; [split|..]; done. Qed.

Lemma os_chdir_cwd rel w r w' :
  os_chdir rel w = (r, w') →
  match r with
  | Ok _ => cwd w' = Fs.resolve (cwd w) rel
  | Raised _ => cwd w' = cwd w
  end.
Proof.
  unfold os_chdir. rewrite bind_unfold. simpl.
  destruct (Fs.node_at _ _) as [[]|]; by intros [= <- <-].
Qed.

Lemma resolve_up (d : list string) : Fs.resolve d ".." = Fs.parent d.
Proof. reflexivity. Qed.

Lemma resolve_docusaurus (d : list string) : Fs.resolve d "docusaurus" = d ++ ["docusaurus"].
Proof. reflexivity. Qed.

(** The sequence ended here, with the working directory where the
    hypotheses put it. *)
Ltac ended_in :=
  unfold in_place in *; split; [|done];
  first [ left; congruence | right; left; congruence | right; right; congruence ].

Lemma prepare_working_directory env self w r w' :
  _prepare env self w = (r, w') →
  (cwd w' = cwd w ∨ cwd w' = Fs.parent (cwd w) ∨
   cwd w' = Fs.parent (cwd w) ++ ["docusaurus"]) ∧
  (r = Ok tt → cwd w' = Fs.parent (cwd w) ++ ["docusaurus"]).
Proof.
  intros H. unfold _prepare in H.
  pose proof in_place_steps as Hsteps.
  pose proof (λ A, in_place_load_zip env (A:=A)) as Hzip.
  advance H H1 u1 w1; apply (keeps_logger in_place Hsteps) in H1; [|ended_in].
  advance H H2 vs w2; apply (keeps_load_files env in_place self Hsteps Hzip) in H2; [|ended_in].
  advance H H3 u3 w3; apply (keeps_logger in_place Hsteps) in H3; [|ended_in].
  advance H H4 u4 w4; apply os_chdir_cwd in H4; rewrite resolve_up in H4 || idtac; [|ended_in].
  advance H H5 u5 w5;
    apply (keeps_call_prepare_prior_versions env in_place) in H5; try done; [|ended_in].
  advance H H6 u6 w6; apply os_chdir_cwd in H6; rewrite resolve_docusaurus in H6 || idtac;
    [|ended_in].
  advance H H7 u7 w7; apply (keeps_logger in_place Hsteps) in H7; [|ended_in].
  advance H H8 u8 w8; apply (keeps_api_docs env in_place Hsteps) in H8; [|ended_in].
  apply (keeps_checkout_correct_branch env in_place Hsteps) in H.
  unfold in_place in *. split; [right; right; congruence | intros _; congruence].
Qed.

(** X11.  The builder changes the working directory and does not put it back:
    [_prepare], [build_docs_locally] and [create_version] go up one level
    and then into the directory named docusaurus there, with no
    [try]/[finally] around it.  A run that completes ends in that directory,
    which is the one it started in only if that was named docusaurus; a run
    that fails ends in the starting directory, in its parent, or in that
    docusaurus directory, by where it failed.  [build_docs] never moves. *)
Theorem working_directory_is_not_restored (env : Env) (self : DocsBuilder)
    (version : Version) (w : World) (r : res unit) (w' : World) :
  let up := Fs.parent (cwd w) in
  (build_docs env self w = (r, w') → cwd w' = cwd w) ∧
  (build_docs_locally env self w = (r, w') ∨ create_version env self version w = (r, w') →
   (cwd w' = cwd w ∨ cwd w' = up ∨ cwd w' = up ++ ["docusaurus"]) ∧
   (r = Ok tt → cwd w' = up ++ ["docusaurus"])).
Proof.
  intros up. subst up.
  pose proof in_place_steps as Hsteps.
  pose proof (λ A, in_place_load_zip env (A:=A)) as Hzip.
  split; [intros H; by apply (keeps_build_docs env in_place Hsteps Hzip) in H|].
  intros [H|H].
  - unfold build_docs_locally in H.
    advance H H1 u1 w1; apply prepare_working_directory in H1 as [H1 H1ok]; [|done].
    specialize (H1ok ltac:(by destruct u1)). clear H1.
    advance H H2 u2 w2; apply (keeps_logger in_place Hsteps) in H2; [|ended_in].
    advance H H3 u3 w3; apply (keeps_command env in_place Hsteps) in H3; [|ended_in].
    injection H as <- <-. unfold in_place in *. split; [right; right; congruence|].
    intros _. congruence.
  - unfold create_version in H.
    advance H H1 u1 w1; apply (keeps_logger in_place Hsteps) in H1; [|ended_in].
    advance H H2 vs w2;
      apply (keeps_load_all_versioned_docs env in_place Hsteps Hzip) in H2; [|ended_in].
    advance H H3 u3 w3; apply (keeps_unless (R:=in_place)) in H3; [|ended_in].
    advance H H4 u4 w4; apply (keeps_command env in_place Hsteps) in H4; [|ended_in].
    advance H H5 old w5;
      apply (keeps_read_prior_release_version_file in_place) in H5; [|ended_in].
    advance H H6 u6 w6; apply (keeps_write_release_version in_place Hsteps) in H6; [|ended_in].
    advance H H7 u7 w7; apply (keeps_command env in_place Hsteps) in H7; [|ended_in].
    advance H H8 u8 w8;
      apply (keeps_load_versioned_code env in_place Hsteps Hzip) in H8; [|ended_in].
    advance H H9 u9 w9; apply os_chdir_cwd in H9; rewrite resolve_up in H9 || idtac;
      [|ended_in].
    advance H H10 u10 w10;
      apply (keeps_call_prepare_prior_version env in_place) in H10; try done; [|ended_in].
    advance H H11 u11 w11; apply os_chdir_cwd in H11;
      rewrite resolve_docusaurus in H11 || idtac; [|ended_in].
    advance H H12 u12 w12; apply (keeps_command env in_place Hsteps) in H12; [|ended_in].
    advance H H13 u13 w13; apply (keeps_logger in_place Hsteps) in H13; [|ended_in].
    advance H H14 u14 w14; apply (keeps_write_release_version in_place Hsteps) in H14;
      [|ended_in].
    advance H H15 u15 w15; apply (keeps_command env in_place Hsteps) in H15; [|ended_in].
    advance H H16 u16 w16; apply (keeps_logger in_place Hsteps) in H16; [|ended_in].
    advance H H17 u17 w17; apply (keeps_api_docs env in_place Hsteps) in H17; [|ended_in].
    advance H H18 u18 w18; apply (keeps_command env in_place Hsteps) in H18; [|ended_in].
    apply (keeps_logger in_place Hsteps) in H.
    unfold in_place in *. split; [right; right; congruence | intros _; congruence].
Qed.

Lemma working_directory_is_not_restored_witness :
  let version := mkVersion ["0"; "16"; "0"] in
  let w := Sim.site_world in
  ∃ w', create_version Sim.demo_env Sim.site_builder version w = (Ok tt, w') ∧
        cwd w = ["repo"; "docs"; "site"] ∧ cwd w' = ["repo"; "docs"; "docusaurus"].
Proof.
  intros version w.
  assert ((create_version Sim.demo_env Sim.site_builder version w).1 = Ok tt)
    as Hr by (vm_compute; reflexivity).
  destruct (create_version Sim.demo_env Sim.site_builder version w) as [r w'] eqn:Hrun.
  simpl in Hr. subst r. exists w'. split; [reflexivity|]. split; [reflexivity|].
  destruct (working_directory_is_not_restored Sim.demo_env Sim.site_builder version w
              (Ok tt) w') as [_ H].
  destruct (H (or_intror Hrun)) as [_ Hok]. rewrite (Hok eq_refl). reflexivity.
Defined.

(** ** The tree stays well formed *)

Lemma ancestor_of_ancestor (a b p : list string) :
  a ∈ Fs.ancestors b → b `prefix_of` p → a ∈ Fs.ancestors p.
Proof.
  rewrite !ancestors_spec. intros (Hne & Hab & Hneq) Hbp.
  split; [done|]. split; [by etrans|].
  intros ->. apply Hneq. apply prefix_length_eq; [done|]. by apply prefix_length.
Qed.

Lemma ancestors_snoc (q : list string) (x : string) (a : list string) :
  a ∈ Fs.ancestors (q ++ [x]) → a = q ∨ a ∈ Fs.ancestors q.
Proof.
  rewrite !ancestors_spec. intros (Hne & Hpre & Hneq).
  assert (a `prefix_of` q) as Haq.
  { destruct Hpre as [k Hk]. destruct k as [|y k _] using rev_ind.
    - rewrite app_nil_r in Hk. by subst.
    - rewrite app_assoc in Hk. apply app_inj_tail in Hk as [-> _]. by exists k. }
  destruct (decide (a = q)); [by left | by right].
Qed.

Lemma well_formed_ancestor (t : gmap (list string) node) (p a : list string) (n : node) :
  Fs.well_formed t → t !! p = Some n → a ∈ Fs.ancestors p → t !! a = Some Dir.
Proof.
  intros Hwf Hp Ha. specialize (Hwf p n Hp). simpl in Hwf.
  rewrite Forall_forall in Hwf. by apply Hwf.
Qed.

Lemma well_formed_intro (t : gmap (list string) node) :
  (∀ p n a, t !! p = Some n → a ∈ Fs.ancestors p → t !! a = Some Dir) → Fs.well_formed t.
Proof. intros H p n Hp. simpl. rewrite Forall_forall. intros a Ha. by eapply H. Qed.

Lemma way_to (t : gmap (list string) node) (d a : list string) :
  Fs.well_formed t → d ≠ [] → Fs.node_at t (Fs.parent d) = Some Dir →
  a ∈ Fs.ancestors d → t !! a = Some Dir.
Proof.
  intros Hwf Hne Hpar Ha.
  destruct d as [|x d _] using rev_ind; [done|].
  unfold Fs.parent in Hpar. rewrite removelast_last in Hpar.
  assert (d ≠ []) as Hd.
  { intros ->. apply ancestors_spec in Ha as (Ha & Hpre & Hneq).
    destruct a as [|y a]; [done|]. destruct Hpre as [k Hk]. simpl in Hk.
    injection Hk as -> Hk. destruct a; [done | discriminate]. }
  rewrite (node_at_lookup t d Hd) in Hpar.
  apply ancestors_snoc in Ha as [->|Ha]; [done|]. by eapply well_formed_ancestor.
Qed.

Lemma rmtree_well_formed (d : list string) (t : gmap (list string) node) :
  Fs.well_formed t → Fs.well_formed (Fs.rmtree d t).
Proof.
  intros Hwf. apply well_formed_intro. intros p n a Hp Ha.
  rewrite lookup_rmtree in Hp. case_decide as Hd; [done|].
  rewrite lookup_rmtree, decide_False; [by eapply well_formed_ancestor|].
  intros Hda. apply Hd. etrans; [exact Hda|]. by apply ancestors_spec in Ha as (_ & ? & _).
Qed.

Lemma insert_well_formed (d : list string) (n : node) (t : gmap (list string) node) :
  Fs.well_formed t → d ≠ [] → Fs.node_at t (Fs.parent d) = Some Dir →
  (t !! d = Some Dir → n = Dir) →
  Fs.well_formed (<[d := n]> t).
Proof.
  intros Hwf Hne Hpar Hkind. apply well_formed_intro. intros p m a Hp Ha.
  assert (t !! a = Some Dir) as Hta.
  { destruct (decide (p = d)) as [->|Hpd]; [by eapply way_to|].
    rewrite lookup_insert_ne in Hp by done. by eapply well_formed_ancestor. }
  destruct (decide (a = d)) as [->|Had].
  - rewrite lookup_insert_eq. f_equal. by apply Hkind.
  - by rewrite lookup_insert_ne.
Qed.

Lemma union_well_formed (delta t : gmap (list string) node) :
  (∀ p n a, delta !! p = Some n → a ∈ Fs.ancestors p → delta !! a = Some Dir) →
  Fs.agrees t delta = true → Fs.well_formed t → Fs.well_formed (delta ∪ t).
Proof.
  intros Hclosed Hag Hwf. rewrite agrees_spec in Hag.
  apply well_formed_intro. intros p n a Hp Ha.
  apply lookup_union_Some_raw in Hp as [Hp|[_ Hp]].
  - apply lookup_union_Some_raw. left. by eapply Hclosed.
  - pose proof (well_formed_ancestor t p a n Hwf Hp Ha) as Hta.
    apply lookup_union_Some_raw. destruct (delta !! a) as [n'|] eqn:Hda; [|by right].
    left. f_equal. apply same_kind_Dir. by eapply Hag.
Qed.

Lemma extract_all_well_formed (root : list string) (ms : list member)
    (t : gmap (list string) node) b t' :
  Zip.extract_all root ms t = (b, t') → Fs.well_formed t → Fs.well_formed t'.
Proof.
  revert t. induction ms as [|m ms IH]; intros t; simpl; [by intros [= _ <-]|].
  destruct (Zip.extract_member root m t) as [t1|] eqn:Hm; [|by intros [= _ <-]].
  intros Hx Hwf. apply (IH _ Hx). revert Hm. unfold Zip.extract_member.
  destruct (Zip.writes _ _) as [delta|] eqn:Hw; [|done].
  destruct (Fs.agrees t delta) eqn:Hag; [|done]. intros [= <-].
  apply union_well_formed; [|done..]. intros p n a Hp Ha.
  apply (writes_lookup _ _ _ _ _ Hw) in Hp as [Hpre _].
  eapply writes_ancestor; [done|]. by eapply ancestor_of_ancestor.
Qed.

Lemma recreate_well_formed (dir : list string) (x : string) (t : gmap (list string) node) :
  Fs.well_formed t → Fs.well_formed (recreate (dir ++ [x]) t).2.
Proof.
  intros Hwf. unfold recreate. set (d := dir ++ [x]).
  assert (d ≠ []) as Hne by (unfold d; by destruct dir).
  assert (∀ t0, Fs.well_formed t0 →
            Fs.well_formed
              (match Fs.node_at t0 d, Fs.node_at t0 (Fs.parent d) with
               | Some _, _ => (Some (OSError "FileExistsError" d), t0)
               | None, Some Dir => (None, <[d := Dir]> t0)
               | None, Some (File _) => (Some (OSError "NotADirectoryError" d), t0)
               | None, None => (Some (OSError "FileNotFoundError" d), t0)
               end).2) as Hmk.
  { intros t0 Hwf0. destruct (Fs.node_at t0 d); [done|].
    destruct (Fs.node_at t0 (Fs.parent d)) as [[c|]|] eqn:Hpar; try done.
    simpl. by apply insert_well_formed. }
  destruct (Fs.node_at t d) as [[c|]|] eqn:Hd; [done | |].
  - by apply Hmk, rmtree_well_formed.
  - specialize (Hmk t Hwf). rewrite Hd in Hmk. exact Hmk.
Qed.

Lemma load_outcome_well_formed (env : Env) (self : DocsBuilder) (dir : list string)
    (t : gmap (list string) node) :
  Fs.well_formed t → Fs.well_formed (load_outcome env self dir t).2.
Proof.
  intros Hwf. unfold load_outcome. rewrite versioned_code_path.
  pose proof (recreate_well_formed dir "versioned_code" t Hwf) as Hrec.
  destruct (recreate _ t) as [[e|] t1]; [done|]. simpl in Hrec.
  unfold unpack. destruct (remote env (S3_URL env)) as [| |ms]; [done..|].
  destruct (Zip.extract_all _ ms t1) as [b t2] eqn:Hx. simpl.
  by eapply extract_all_well_formed.
Qed.

Lemma renamed_well_formed (src dst : list string) (t : gmap (list string) node) :
  Fs.well_formed t → ¬ src `prefix_of` dst →
  (∀ a, a ∈ Fs.ancestors dst → t !! a = Some Dir) →
  (∀ q n, t !! (dst ++ q) = Some n → q = []) →
  Fs.well_formed (Fs.renamed src dst t).
Proof.
  intros Hwf Hpre Hway Hfree.
  assert (src ≠ []) as Hsrc by (intros ->; apply Hpre, prefix_nil).
  assert (∀ a, a ∈ Fs.ancestors dst → Fs.renamed src dst t !! a = Some Dir) as Hway'.
  { intros a Ha. unfold Fs.renamed. apply lookup_union_Some_raw. right.
    pose proof Ha as (_ & Had & Hneq)%ancestors_spec. split.
    - apply lookup_rerooted_off. intros Hda. apply Hneq. by apply (anti_symm prefix).
    - rewrite lookup_rmtree, decide_False; [by apply Hway|].
      intros Hsa. apply Hpre. by etrans. }
  apply well_formed_intro. intros p n a Hp Ha.
  pose proof Ha as (Hane & Hap & Hneq)%ancestors_spec.
  unfold Fs.renamed in Hp. apply lookup_union_Some_raw in Hp as [Hp|[Hnone Hp]].
  - assert (dst `prefix_of` p) as [q ->].
    { destruct (decide (dst `prefix_of` p)) as [|Hoff]; [done|].
      by rewrite (lookup_rerooted_off _ _ _ _ Hoff) in Hp. }
    rewrite lookup_rerooted in Hp.
    destruct (decide (dst `prefix_of` a)) as [[q' ->]|Hnda].
    + unfold Fs.renamed. apply lookup_union_Some_raw. left. rewrite lookup_rerooted.
      eapply well_formed_ancestor; [done..|]. apply ancestors_spec.
      split; [by destruct src|]. split.
      * by apply prefix_app, (prefix_app_inv dst).
      * intros E. apply Hneq. by apply (inj (app src)) in E as ->.
    + apply Hway'. apply ancestors_spec. split; [done|].
      destruct (prefix_weak_total a dst (dst ++ q)) as [Had|Hda];
        [done | by exists q | | done].
      split; [done|]. by intros ->.
  - rewrite lookup_rmtree in Hp. case_decide as Hsp; [done|].
    pose proof (well_formed_ancestor t p a n Hwf Hp Ha) as Hta.
    destruct (decide (dst `prefix_of` a)) as [[q' ->]|Hnda].
    + pose proof (Hfree _ _ Hta) as ->. rewrite app_nil_r in *.
      destruct Hap as [k ->]. pose proof (Hfree _ _ Hp) as ->.
      by rewrite app_nil_r in Hneq.
    + unfold Fs.renamed. apply lookup_union_Some_raw. right.
      split; [by apply lookup_rerooted_off|].
      rewrite lookup_rmtree, decide_False; [done|].
      intros Hsa. apply Hsp. by etrans.
Qed.

Lemma nothing_below_file (t : gmap (list string) node) (d q : list string) (c : string) (n : node) :
  Fs.well_formed t → d ≠ [] → t !! d = Some (File c) → t !! (d ++ q) = Some n → q = [].
Proof.
  intros Hwf Hne Hd Hq. destruct q as [|x q]; [done|].
  assert (t !! d = Some Dir) as Hdir; [|congruence].
  eapply well_formed_ancestor; [done..|]. apply ancestors_spec.
  split; [done|]. split; [by eexists|].
  intros E. rewrite <- (app_nil_r d) in E at 1. by apply (inj (app d)) in E.
Qed.

Lemma nothing_below_nothing (t : gmap (list string) node) (d q : list string) (n : node) :
  Fs.well_formed t → d ≠ [] → t !! d = None → t !! (d ++ q) = Some n → q = [].
Proof.
  intros Hwf Hne Hd Hq.
  rewrite (well_formed_below t d (d ++ q) Hwf Hne Hd) in Hq; [done | by eexists].
Qed.

#[global] Instance stays_well_formed_preorder : PreOrder stays_well_formed.
Proof.
  split; [intros w H; exact H|]. intros w1 w2 w3 H12 H23 H. by apply H23, H12.
Qed.

Lemma node_at_root_free (t : gmap (list string) node) (p : list string) :
  Fs.node_at t p ≠ Some Dir → p ≠ [].
Proof. by intros H ->. Qed.

Lemma shutil_move_well_formed (src dst : list string) : keeps stays_well_formed (shutil_move src dst).
Proof.
  intros w r w' H Hwf. revert H. unfold shutil_move. rewrite bind_unfold. simpl.
  set (t := fs (sys w)) in *.
  destruct (Fs.node_at t src) as [n|] eqn:Hsrc; [|by intros [= _ <-]].
  case_decide as Hsd; [by intros [= _ <-]|].
  destruct (Fs.node_at t dst) as [[c|]|] eqn:Hdst.
  - (* onto a file *)
    assert (dst ≠ []) as Hne by (apply (node_at_root_free t); congruence).
    rewrite (node_at_lookup t dst Hne) in Hdst.
    case_bool_decide as Hpre; [by intros [= _ <-]|].
    destruct n; [|by intros [= _ <-]]. intros [= _ <-]. simpl.
    apply renamed_well_formed; [done..| |].
    + intros a Ha. by eapply well_formed_ancestor.
    + intros q n. by eapply nothing_below_file.
  - (* into a directory *)
    destruct (last src) as [base|] eqn:Hlast.
    2: { apply last_None in Hlast as ->. rewrite bool_decide_eq_true_2 by apply prefix_nil.
         by intros [= _ <-]. }
    case_bool_decide as Hpre; [by intros [= _ <-]|].
    destruct (Fs.node_at t (dst ++ [base])) as [n'|] eqn:Hreal; [by intros [= _ <-]|].
    intros [= _ <-]. simpl.
    assert (dst ++ [base] ≠ []) as Hne by (by destruct dst).
    rewrite (node_at_lookup t _ Hne) in Hreal.
    apply renamed_well_formed; [done..| |].
    + intros a Ha. eapply way_to; [done | exact Hne | | done].
      unfold Fs.parent. by rewrite removelast_last.
    + intros q n'. by eapply nothing_below_nothing.
  - (* to a fresh place *)
    assert (dst ≠ []) as Hne by (by intros ->).
    rewrite (node_at_lookup t dst Hne) in Hdst.
    case_bool_decide as Hpre; [by intros [= _ <-]|].
    destruct n as [c|].
    + destruct (Fs.node_at t (Fs.parent dst)) as [[c'|]|] eqn:Hpar; [by intros [= _ <-]| |by intros [= _ <-]].
      intros [= _ <-]. simpl.
      apply renamed_well_formed; [done..| |].
      * intros a Ha. by eapply way_to.
      * intros q n'. by eapply nothing_below_nothing.
    + destruct (Fs.agrees t (Fs.dirs (Fs.ancestors dst))) eqn:Hag; [|by intros [= _ <-]].
      intros [= _ <-]. simpl.
      assert (∀ p, is_Some (Fs.dirs (Fs.ancestors dst) !! p) → p ∈ Fs.ancestors dst) as Hd.
      { intros p [n Hp]. rewrite lookup_dirs in Hp. by case_decide. }
      apply renamed_well_formed; [|done| |].
      * apply union_well_formed; [|done..]. intros p n a Hp Ha.
        rewrite lookup_dirs, decide_True; [done|].
        pose proof (Hd p (mk_is_Some _ _ Hp)) as (_ & Hle & _)%ancestors_spec.
        by eapply ancestor_of_ancestor.
      * intros a Ha. apply lookup_union_Some_raw. left.
        by rewrite lookup_dirs, decide_True.
      * intros q n Hq. apply lookup_union_Some_raw in Hq as [Hq|[_ Hq]].
        -- pose proof (Hd _ (mk_is_Some _ _ Hq)) as (_ & Hle & Hneq)%ancestors_spec.
           destruct q as [|x q]; [done|]. apply prefix_length in Hle.
           rewrite length_app in Hle. simpl in Hle. lia.
        -- by eapply nothing_below_nothing.
Qed.

Lemma stays_well_formed_same_tree w w' : fs (sys w') = fs (sys w) → stays_well_formed w w'.
Proof. intros E H. by rewrite E. Qed.

Lemma write_release_version_well_formed content :
  keeps stays_well_formed (_write_release_version content).
Proof.
  intros w r w' H Hwf. revert H. unfold _write_release_version, write_text.
  repeat (rewrite bind_unfold; simpl).
  set (p := Fs.resolve (cwd w) _release_version_file).
  destruct (Fs.node_at (fs (sys w)) p) as [[c|]|] eqn:Hp;
    [|by intros [= _ <-]|];
    (destruct (Fs.node_at (fs (sys w)) (Fs.parent p)) as [[c'|]|] eqn:Hpar;
     [by intros [= _ <-]| |by intros [= _ <-]]);
    intros [= _ <-]; simpl.
  all: assert (p ≠ []) as Hne by (apply (node_at_root_free (fs (sys w))); congruence).
  all: rewrite (node_at_lookup _ p Hne) in Hp.
  all: apply insert_well_formed; [done..|congruence].
Qed.

Lemma extractall_well_formed z root : keeps stays_well_formed (extractall z root).
Proof.
  intros w r w' H Hwf. revert H. unfold extractall, check_open.
  repeat (rewrite bind_unfold; simpl).
  case_decide; simpl; [|by intros [= _ <-]]. rewrite bind_unfold. simpl.
  destruct (Zip.extract_all _ _ _) as [b t'] eqn:Hx. simpl.
  apply extract_all_well_formed in Hx; [|done].
  destruct b; by intros [= _ <-].
Qed.

Lemma load_zip_well_formed env {A} url (body : ZipFile → M A) :
  (∀ z, keeps stays_well_formed (body z)) →
  keeps stays_well_formed (_load_zip env url body).
Proof.
  intros Hbody w r w'. unfold _load_zip.
  destruct (remote env url) as [| |ms]; [by intros [= <- <-]..|].
  destruct (body _ _) as [r' w2] eqn:Hb. intros [= <- <-] Hwf.
  apply Hbody in Hb. simpl. by apply Hb.
Qed.

Lemma logger_well_formed b msg : keeps stays_well_formed (emit (ELog b msg)).
Proof. apply keeps_emit. intros w H. exact H. Qed.

Lemma load_versioned_code_well_formed env self version :
  keeps stays_well_formed (_load_versioned_code env self version).
Proof.
  unfold _load_versioned_code.
  apply keeps_bind; [apply _ | apply logger_well_formed |]. intros _.
  apply load_zip_well_formed. intros z.
  apply keeps_bind; [apply _ | apply extractall_well_formed |]. intros _.
  apply shutil_move_well_formed.
Qed.

Lemma load_all_well_formed env self :
  keeps stays_well_formed (_load_all_versioned_docs env self).
Proof.
  intros w r w' H Hwf.
  destruct (load_all_spec env self w) as (w1 & E & F & _).
  rewrite H in E. injection E as _ <-. rewrite F.
  by apply load_outcome_well_formed.
Qed.

Section tidy.
Context (env : Env) (Htidy : tidy env).

Lemma command_well_formed c : keeps stays_well_formed (context_run env c).
Proof.
  intros w r w'. unfold context_run.
  destruct (run env c (cwd w) (sys w)) as [[o|what] s] eqn:Hrun; intros [= <- <-] Hwf;
    simpl; by eapply (tidy_run env Htidy).
Qed.

Lemma checked_command_well_formed c : keeps stays_well_formed (_run env c).
Proof.
  unfold _run. apply keeps_bind; [apply _ | apply command_well_formed |].
  intros [r|]; [|apply keeps_ret, _].
  destruct (truthy r); simpl; [|apply keeps_ret, _].
  destruct (ok r); simpl; [apply keeps_ret, _ | apply keeps_raise, _].
Qed.

Lemma api_docs_well_formed : keeps stays_well_formed (_invoke_api_docs env).
Proof.
  unfold _invoke_api_docs.
  apply keeps_bind; [apply _ | apply logger_well_formed |]. intros _.
  apply keeps_bind; [apply _ | apply checked_command_well_formed |]. intros _.
  apply keeps_ret, _.
Qed.

Lemma checkout_correct_branch_well_formed self :
  keeps stays_well_formed (_checkout_correct_branch env self).
Proof.
  unfold _checkout_correct_branch. destruct (_is_local self).
  all: apply keeps_bind; [apply _ | apply logger_well_formed |]; intros _.
  all: apply keeps_bind; [apply _ | apply checked_command_well_formed |]; intros _.
  all: apply keeps_ret, _.
Qed.

Lemma chdir_well_formed rel : keeps stays_well_formed (os_chdir rel).
Proof. apply keeps_os_chdir; [apply _|]. intros w d H. exact H. Qed.

Lemma prepare_prior_version_well_formed v :
  keeps stays_well_formed (call_prepare_prior_version env v).
Proof.
  intros w r w'. unfold call_prepare_prior_version.
  destruct (prepare_prior_version env v (cwd w) (sys w)) as [[what|] s] eqn:Hp;
    intros [= <- <-] Hwf; simpl; by eapply (tidy_prepare_prior_version env Htidy).
Qed.

Lemma prepare_prior_versions_well_formed vs :
  keeps stays_well_formed (call_prepare_prior_versions env vs).
Proof.
  intros w r w'. unfold call_prepare_prior_versions.
  destruct (prepare_prior_versions env vs (cwd w) (sys w)) as [[what|] s] eqn:Hp;
    intros [= <- <-] Hwf; simpl; by eapply (tidy_prepare_prior_versions env Htidy).
Qed.

Lemma prepare_well_formed self : keeps stays_well_formed (_prepare env self).
Proof.
  unfold _prepare.
  apply keeps_bind; [apply _ | apply logger_well_formed |]. intros _.
  apply keeps_bind; [apply _ | |].
  { unfold _load_files.
    apply keeps_bind; [apply _ | apply load_all_well_formed |]. intros versions.
    apply keeps_bind; [apply _ | | intros; apply keeps_ret, _].
    apply keeps_mapM; [apply _|]. intros v. apply load_versioned_code_well_formed. }
  intros versions.
  apply keeps_bind; [apply _ | apply logger_well_formed |]. intros _.
  apply keeps_bind; [apply _ | apply chdir_well_formed |]. intros _.
  apply keeps_bind; [apply _ | apply prepare_prior_versions_well_formed |]. intros _.
  apply keeps_bind; [apply _ | apply chdir_well_formed |]. intros _.
  apply keeps_bind; [apply _ | apply logger_well_formed |]. intros _.
  apply keeps_bind; [apply _ | apply api_docs_well_formed |]. intros _.
  apply checkout_correct_branch_well_formed.
Qed.

Lemma build_docs_well_formed self : keeps stays_well_formed (build_docs env self).
Proof.
  unfold build_docs.
  apply keeps_bind; [apply _ | apply logger_well_formed |]. intros _.
  apply keeps_bind; [apply _ | apply load_all_well_formed |]. intros _.
  apply keeps_bind; [apply _ | apply api_docs_well_formed |]. intros _.
  apply keeps_bind; [apply _ | apply logger_well_formed |]. intros _.
  apply keeps_bind; [apply _ | apply command_well_formed |]. intros _.
  apply keeps_ret, _.
Qed.

Lemma build_docs_locally_well_formed self :
  keeps stays_well_formed (build_docs_locally env self).
Proof.
  unfold build_docs_locally.
  apply keeps_bind; [apply _ | apply prepare_well_formed |]. intros _.
  apply keeps_bind; [apply _ | apply logger_well_formed |]. intros _.
  apply keeps_bind; [apply _ | apply command_well_formed |]. intros _.
  apply keeps_ret, _.
Qed.

Lemma create_version_well_formed self version :
  keeps stays_well_formed (create_version env self version).
Proof.
  unfold create_version.
  apply keeps_bind; [apply _ | apply logger_well_formed |]. intros _.
  apply keeps_bind; [apply _ | apply load_all_well_formed |]. intros versions.
  apply keeps_bind; [apply _ | apply keeps_unless |]. intros _.
  apply keeps_bind; [apply _ | apply command_well_formed |]. intros _.
  apply keeps_bind; [apply _ | apply keeps_read_prior_release_version_file; apply _ |].
  intros old.
  apply keeps_bind; [apply _ | apply write_release_version_well_formed |]. intros _.
  apply keeps_bind; [apply _ | apply command_well_formed |]. intros _.
  apply keeps_bind; [apply _ | apply load_versioned_code_well_formed |]. intros _.
  apply keeps_bind; [apply _ | apply chdir_well_formed |]. intros _.
  apply keeps_bind; [apply _ | apply prepare_prior_version_well_formed |]. intros _.
  apply keeps_bind; [apply _ | apply chdir_well_formed |]. intros _.
  apply keeps_bind; [apply _ | apply command_well_formed |]. intros _.
  apply keeps_bind; [apply _ | apply logger_well_formed |]. intros _.
  apply keeps_bind; [apply _ | apply write_release_version_well_formed |]. intros _.
  apply keeps_bind; [apply _ | apply command_well_formed |]. intros _.
  apply keeps_bind; [apply _ | apply logger_well_formed |]. intros _.
  apply keeps_bind; [apply _ | apply api_docs_well_formed |]. intros _.
  apply keeps_bind; [apply _ | apply command_well_formed |]. intros _.
  apply logger_well_formed.
Qed.

End tidy.

(** X12.  What the builder does to the tree by itself keeps it well formed (every
    node in a directory), however the step ends: removing and making
    versioned_code, extracting an archive, also partway, moving the
    extracted directory, writing the release version file.  With
    collaborators that keep it well formed too, so does every operation, on
    every exit path. *)
Theorem tree_stays_well_formed (env : Env) (self : DocsBuilder) (version : Version)
    (w : World) (w' : World) :
  Fs.well_formed (fs (sys w)) →
  ((∃ r, _load_all_versioned_docs env self w = (r, w')) ∨
   (∃ r, _load_versioned_code env self version w = (r, w')) ∨
   (∃ content r, _write_release_version content w = (r, w')) →
   Fs.well_formed (fs (sys w'))) ∧
  (tidy env →
   (∃ r, build_docs env self w = (r, w')) ∨
   (∃ r, build_docs_locally env self w = (r, w')) ∨
   (∃ r, create_version env self version w = (r, w')) →
   Fs.well_formed (fs (sys w'))).
Proof.
  intros Hwf. split.
  - intros [[r H]|[[r H]|(content & r & H)]].
    + apply load_all_well_formed in H. by apply H.
    + apply load_versioned_code_well_formed in H. by apply H.
    + apply write_release_version_well_formed in H. by apply H.
  - intros Htidy [[r H]|[[r H]|[r H]]].
    + apply (build_docs_well_formed env Htidy) in H. by apply H.
    + apply (build_docs_locally_well_formed env Htidy) in H. by apply H.
    + apply (create_version_well_formed env Htidy) in H. by apply H.
Qed.

Lemma sim_tidy tags table : tidy (Sim.env tags table).
Proof.
  split; [|by intros v dir s o s' [= _ <-]..].
  intros c dir s o s'. change (run (Sim.env tags table)) with (Sim.shell [] tags).
  unfold Sim.shell. repeat case_decide; try (by intros [= _ <-]).
  - destruct (prev_head s); by intros [= _ <-].
  - destruct (Sim.after _ _); by intros [= _ <-].
Qed.

Lemma tree_stays_well_formed_witness :
  let version := mkVersion ["0"; "16"; "0"] in
  let w := Sim.world Sim.stale_fs in
  let w' := (create_version Sim.demo_env (Sim.builder true) version w).2 in
  Fs.well_formed (fs (sys w)) ∧ Fs.well_formed (fs (sys w')).
Proof.
  intros version w w'.
  pose proof (proj1 sim_fs_well_formed) as Hwf. split; [exact Hwf|].
  destruct (tree_stays_well_formed Sim.demo_env (Sim.builder true) version w w' Hwf)
    as [_ H].
  apply H; [apply sim_tidy|]. right. right.
  exists (create_version Sim.demo_env (Sim.builder true) version w).1.
  apply surjective_pairing.
Defined.

(** ** The release version file, written and read back *)

(** X13.  What [_write_release_version] wrote is what
    [_read_prior_release_version_file] reads next; and in a well-formed tree
    writing back what was just read succeeds and leaves the tree as it was,
    which is how [create_version] restores the file. *)
Theorem release_version_round_trip (w w1 : World) (content : string) :
  (_write_release_version content w = (Ok tt, w1) →
   _read_prior_release_version_file w1 = (Ok content, w1)) ∧
  (Fs.well_formed (fs (sys w)) →
   _read_prior_release_version_file w = (Ok content, w1) →
   ∃ w2, _write_release_version content w1 = (Ok tt, w2) ∧ fs (sys w2) = fs (sys w)).
Proof.
  unfold _write_release_version, _read_prior_release_version_file, write_text, read_text.
  split.
  - repeat (rewrite bind_unfold; simpl).
    set (p := Fs.resolve (cwd w) _release_version_file).
    assert (p ≠ []) as Hne.
    { unfold p. rewrite release_version_file_path. by destruct (cwd w). }
    intros H.
    assert (w1 = with_event (EWrite p content)
                   (with_fs (<[p := File content]> (fs (sys w))) w)) as ->.
    { revert H. repeat case_match; by intros [= <-]. }
    simpl. fold p. rewrite (node_at_lookup _ p Hne), lookup_insert_eq. done.
  - intros Hwf. repeat (rewrite bind_unfold; simpl).
    set (p := Fs.resolve (cwd w) _release_version_file).
    assert (p ≠ []) as Hne.
    { unfold p. rewrite release_version_file_path. by destruct (cwd w). }
    destruct (Fs.node_at (fs (sys w)) p) as [[c|]|] eqn:Hp; [|done..].
    intros [= -> <-]. fold p. rewrite Hp.
    rewrite (node_at_lookup _ p Hne) in Hp.
    assert (Fs.node_at (fs (sys w)) (Fs.parent p) = Some Dir) as ->.
    { destruct p as [|x p _] using rev_ind; [done|].
      unfold Fs.parent. rewrite removelast_last.
      destruct p as [|y p]; [done|]. simpl.
      eapply well_formed_ancestor; [done..|]. apply ancestors_spec.
      split; [done|]. split; [by eexists|]. intros E.
      apply (f_equal length) in E. rewrite length_app in E. simpl in E. lia. }
    eexists. split; [reflexivity|]. simpl. by apply insert_id.
Qed.

Lemma release_version_round_trip_witness :
  let w := Sim.world Sim.base_fs in
  Fs.well_formed (fs (sys w)) ∧
  _read_prior_release_version_file w = (Ok "export default {}", w) ∧
  ∃ w2, _write_release_version "export default {}" w = (Ok tt, w2) ∧ fs (sys w2) = fs (sys w).
Proof.
  intros w.
  assert (Fs.well_formed (fs (sys w))) as Hwf.
  { apply (bool_decide_unpack (Fs.well_formed Sim.base_fs)). vm_compute. exact I. }
  assert (_read_prior_release_version_file w = (Ok "export default {}", w)) as Hread
    by reflexivity.
  split; [exact Hwf|]. split; [exact Hread|].
  exact (proj2 (release_version_round_trip w w "export default {}") Hwf Hread).
Defined.

(** ** Loading the code of every version *)

Lemma mapM_Ok_inv {A B} (f : A → M B) (l : list A) w bs w' :
  mapM f l w = (Ok bs, w') → Forall (λ a, ∃ w1 b w2, f a w1 = (Ok b, w2)) l.
Proof.
  revert w bs w'. induction l as [|a l IH]; intros w bs w'; [by constructor|].
  simpl. intros H.
  apply bind_Ok_inv in H as (b & w1 & Hf & H).
  apply bind_Ok_inv in H as (bs' & w2 & Hl & _).
  constructor; [by exists w, b, w1 | by eapply IH].
Qed.

Lemma load_versioned_code_Ok_served env self version w w' :
  _load_versioned_code env self version w = (Ok tt, w') →
  ∃ ms, remote env (tag_url (VersionOps.to_string version)) = Zipped ms.
Proof.
  unfold _load_versioned_code. intros H.
  apply bind_Ok_inv in H as ([] & w1 & _ & H).
  fold (tag_url (VersionOps.to_string version)) in H.
  revert H. unfold _load_zip.
  destruct (remote env (tag_url (VersionOps.to_string version))) as [| |ms];
    [done..|]. by exists ms.
Qed.

(** X14.  [_load_files] returns the versions the versions archive lists, as
    [_load_all_versioned_docs] returned them, and only after the archive of
    every one of them has been fetched and unpacked: there is no partial
    result, one archive that is not served fails the whole load. *)
Theorem load_files_loads_every_version (env : Env) (self : DocsBuilder)
    (w : World) (versions : list Version) (w' : World) :
  _load_files env self w = (Ok versions, w') →
  (∃ w1, _load_all_versioned_docs env self w = (Ok versions, w1)) ∧
  Forall (λ v, ∃ ms, remote env (tag_url (VersionOps.to_string v)) = Zipped ms) versions.
Proof.
  unfold _load_files. intros H.
  apply bind_Ok_inv in H as (vs & w1 & Hload & H).
  apply bind_Ok_inv in H as (us & w2 & Hmap & [= <- <-]).
  split; [by exists w1|].
  apply mapM_Ok_inv in Hmap. eapply Forall_impl; [exact Hmap|].
  intros v (wa & [] & wb & Hv). by eapply load_versioned_code_Ok_served.
Qed.

Lemma load_files_loads_every_version_witness :
  let w := Sim.world Sim.base_fs in
  ∃ w', _load_files Sim.demo_env (Sim.builder true) w = (Ok [mkVersion ["0"; "15"; "2"]], w') ∧
        ∃ ms, remote Sim.demo_env (tag_url "0.15.2") = Zipped ms.
Proof.
  intros w.
  assert ((_load_files Sim.demo_env (Sim.builder true) w).1 = Ok [mkVersion ["0"; "15"; "2"]])
    as Hr by (vm_compute; reflexivity).
  destruct (_load_files Sim.demo_env (Sim.builder true) w) as [r w'] eqn:Hrun.
  simpl in Hr. subst r. exists w'. split; [reflexivity|].
  destruct (load_files_loads_every_version _ _ _ _ _ Hrun) as [_ Hall].
  apply Forall_cons in Hall as [Hv _]. exact Hv.
Defined.

(** ** A fetch that fails *)

(** X15.  [_load_all_versioned_docs] removes and recreates versioned_code before
    it fetches the versions archive.  So when the archive is not served, or
    is not a zip file, the call raises what the fetch raised and leaves
    versioned_code an empty directory: what it held before is gone, and
    everything off versioned_code is as it was. *)
Theorem failed_fetch_empties_versioned_code (env : Env) (self : DocsBuilder) (w : World) :
  let versioned_code := cwd w ++ ["versioned_code"] in
  (∀ ms, remote env (S3_URL env) ≠ Zipped ms) →
  fs (sys w) !! versioned_code = Some Dir →
  Fs.node_at (fs (sys w)) (cwd w) = Some Dir →
  ∃ e w', _load_all_versioned_docs env self w = (Raised e, w') ∧
          (e = RequestException (S3_URL env) ∨ e = BadZipFile) ∧
          ∀ p, fs (sys w') !! p =
               if decide (p = versioned_code) then Some Dir
               else if decide (versioned_code `prefix_of` p) then None
               else fs (sys w) !! p.
Proof.
  intros d Hremote Hd Hdir.
  destruct (load_all_spec env self w) as (w' & E & F & _).
  assert (load_outcome env self (cwd w) (fs (sys w))
          = (match remote env (S3_URL env) with
             | NotAZip => Raised BadZipFile
             | _ => Raised (RequestException (S3_URL env))
             end, <[d := Dir]> (Fs.rmtree d (fs (sys w))))) as Hout.
  { unfold load_outcome. rewrite versioned_code_path. fold d.
    unfold d. rewrite (recreate_directory (cwd w) "versioned_code" _ Hd Hdir).
    unfold unpack. destruct (remote env (S3_URL env)) as [| |ms] eqn:Hr; [done..|].
    by destruct (Hremote ms). }
  rewrite Hout in E, F. simpl in E, F.
  assert (∃ e, _load_all_versioned_docs env self w = (Raised e, w') ∧
               (e = RequestException (S3_URL env) ∨ e = BadZipFile)) as (e & He & Hcase).
  { destruct (remote env (S3_URL env)); eexists; (split; [exact E|]); auto. }
  exists e, w'. split; [exact He|]. split; [exact Hcase|].
  intros p. rewrite F. destruct (decide (p = d)) as [->|Hne].
  - apply lookup_insert_eq.
  - rewrite lookup_insert_ne by done. apply lookup_rmtree.
Qed.

Lemma failed_fetch_empties_versioned_code_witness :
  let w := Sim.world Sim.stale_fs in
  let stale := Sim.docusaurus ++ ["versioned_code"; "stale.txt"] in
  fs (sys w) !! stale = Some (File "old") ∧
  ∃ e w', _load_all_versioned_docs (Sim.env "" []) (Sim.builder true) w = (Raised e, w') ∧
          fs (sys w') !! stale = None.
Proof.
  intros w stale. split; [reflexivity|].
  destruct (failed_fetch_empties_versioned_code (Sim.env "" []) (Sim.builder true) w)
    as (e & w' & Hrun & _ & Hfs); [done | reflexivity | reflexivity |].
  exists e, w'. split; [exact Hrun|]. rewrite (Hfs stale). reflexivity.
Defined.

(** ** The errors of the helper surface *)

#[global] Instance before_command_preorder c : PreOrder (before_command c).
Proof. unfold before_command. apply _. Qed.


























(** ** The script of [create_version] *)





